(** * Dynamic runner: the estimation engine of [core/caller/dynamic_engine.py]

    A shallow embedding of the parts of the dynamic runner that the
    specification talks about:
    - the [Nonlinear] engine (simulator / EKF / UKF estimator), with its
      state-history buffers and error covariance;
    - the [LinearKalmanFilter] recursion;
    - the D-matrix normalisation of [LtiGroup] and [LinearKalmanFilter];
    - [Scope.append] and [Scope.select];
    - the Jacobian method of the [Lorenz] block, with Python's name lookup.

    Numbers are the elements of an arbitrary field [F] (exact arithmetic);
    vectors and matrices are MathComp matrices over [F].  The routines of
    numpy that are not part of the repository and have no closed form in a
    field ([np.sqrt], [np.linalg.cholesky]) are section variables: every
    result below holds for every implementation of them.  [np.linalg.inv]
    is MathComp's [invmx], raising [LinAlgError] on a singular matrix.
    A not-a-number entry of a measured output is [None]. *)

From HB Require Import structures.
From mathcomp Require Import boot order algebra.
From Stdlib Require Import String.

Set Implicit Arguments.
Unset Strict Implicit.
Unset Printing Implicit Defensive.

Import GRing.Theory.
Local Open Scope ring_scope.

(** ** Python exceptions and the error monad *)

Inductive exn :=
| NameError (name : string)
| UnboundLocalError (name : string)
| AttributeError (name : string)
| IndexError
| ValueError
| TypeError
| LinAlgError.

Inductive result (A : Type) :=
| Ok (a : A)
| Err (e : exn).
Arguments Ok {A} a.
Arguments Err {A} e.

Definition bind {A B} (m : result A) (k : A -> result B) : result B :=
  match m with Ok a => k a | Err e => Err e end.

Notation "x <- m ;; k" := (bind m (fun x => k))
  (at level 61, m at next level, right associativity).

Section Engine.

Variable F : fieldType.

(** [np.sqrt] and [np.linalg.cholesky] (lower factor, or [LinAlgError]). *)
Variable sqrt : F -> F.
Variable cholesky : forall m, 'M[F]_m -> result 'M[F]_m.

(** ** UKF configuration: [Nonlinear.__init__], lines 922-935

    The class attributes of a block that the UKF branch of the
    constructor reads.  [cfg_num_states] is [None] when the block class
    has no attribute [num_states] (the attribute lookup then raises). *)
Record ukf_cfg := {
  cfg_n_states : nat;
  cfg_num_states : option nat;
  cfg_alpha : F;
  cfg_kappa : F
}.

(** The arrays an object refers to: a reference is a position in the heap,
    so that two attributes holding the same reference alias one array. *)
Definition heap := seq (seq F).
Definition ref := nat.

Definition heap_get (h : heap) (r : ref) (i : nat) : F := nth 0 (nth [::] h r) i.
Definition heap_set (h : heap) (r : ref) (i : nat) (v : F) : heap :=
  set_nth [::] h r (set_nth 0 (nth [::] h r) i v).

(** The UKF attributes of an estimator object. *)
Record ukf_data := {
  n_ukf : nat;
  lambd : F;
  betta : F;
  wm : ref;
  wc : ref;
  ukf_heap : heap
}.

Definition ukf_init (c : ukf_cfg) : result ukf_data :=
  match cfg_num_states c with
  | None => Err (AttributeError "num_states"%string)
  | Some nu =>
      let alpha := cfg_alpha c in
      let lambd := alpha ^+ 2 * (nu%:R + cfg_kappa c) - nu%:R in
      let betta : F := 2%:R in
      (* self.wm = np.ones([2*n_ukf + 1, 1])/(2*(n_ukf + lambd)) *)
      let h0 : heap := [:: nseq (2 * nu + 1) (1 / (2%:R * (nu%:R + lambd)))] in
      let wm_r : ref := 0 in
      (* self.wc = self.wm : the same array *)
      let wc_r : ref := wm_r in
      (* self.wc[0,0] = self.wm[0,0] + (1 - alpha^2 + betta) *)
      let h1 := heap_set h0 wc_r 0 (heap_get h0 wm_r 0 + (1 - alpha ^+ 2 + betta)) in
      Ok {| n_ukf := nu; lambd := lambd; betta := betta;
            wm := wm_r; wc := wc_r; ukf_heap := h1 |}
  end.

(** Weights as read through the attributes. *)
Definition wm_of (d : ukf_data) : seq F := nth [::] (ukf_heap d) (wm d).
Definition wc_of (d : ukf_data) : seq F := nth [::] (ukf_heap d) (wc d).

(** ** The [Nonlinear] engine *)

Section Nonlinear.

Variables n nu ny : nat.

(** A history buffer ([self.states], [self.inputs]): column [j] of the
    numpy array is [h j].  Every access made by a tick is in range once the
    tick has read [self.time_line[0, k]] (see [ekf_predict]), so the buffer
    is total here. *)
Definition hist m := nat -> 'cV[F]_m.
(** The output buffer [self.outputs]: a stored measurement may carry the
    not-a-number marker ([None]). *)
Definition ohist m := nat -> 'cV[option F]_m.

(** [h[:, k] = v] *)
Definition upd (T : Type) (h : nat -> T) (k : nat) (v : T) : nat -> T :=
  fun j => if j == k then v else h j.

Inductive time_kind := Continuous | Discrete.
Inductive solver := Euler | Rk4.

(** The six matrices returned by [_jacobians]: [(A, B, H, D, L, M)]. *)
Record jac := {
  jA : 'M[F]_n;
  jB : 'M[F]_(n, nu);
  jH : 'M[F]_(ny, n);
  jD : 'M[F]_(ny, nu);
  jL : 'M[F]_n;
  jM : 'M[F]_ny
}.

(** The plant contract: the four methods a block overrides, and the class
    attributes the estimator reads.  [_limitations(x, 0)] receives the
    whole state history, [_limitations(x, 1)] a single state column.
    [_jacobians] receives [self.states] itself, so it may overwrite it
    (QuadrupleTank clamps [x[:, k]]): it returns the buffer as it leaves
    it, or the exception it raises. *)
Record plant := {
  time_type : time_kind;
  dynamics : hist n -> hist nu -> nat -> F -> F -> 'cV[F]_n;
  measurements : hist n -> hist nu -> nat -> F -> F -> 'cV[F]_ny;
  limit_pre : hist n -> hist n;
  limit_post : 'cV[F]_n -> 'cV[F]_n;
  jacobians : hist n -> hist nu -> nat -> F -> F -> result (hist n * jac);
  q_matrix : 'M[F]_n;
  r_matrix : 'M[F]_ny
}.

(** The mutable attributes of a [Nonlinear] object. *)
Record engine := {
  time_line : nat -> F;
  n_steps : nat;
  sample_time : F;
  solver_type : solver;
  current_step : nat;
  inputs : hist nu;
  outputs : ohist ny;
  states : hist n;
  covariance : 'M[F]_n
}.

(** Modelled from the spec: [SolverCore.dynamic_runner] (core_library,
    not part of the sources), section 4.1: the derivative is evaluated at
    [x_eval] (here the whole state history, to which numpy broadcasts the
    stage increments column-wise) and accumulated onto [x_base]. *)
Definition bcast (x : hist n) (c : F) (v : 'cV[F]_n) : hist n :=
  fun j => x j + c *: v.

Definition dynamic_runner (f : hist n -> 'cV[F]_n) (x_eval : hist n)
    (x_base : 'cV[F]_n) (dt : F) (m : solver) : 'cV[F]_n :=
  match m with
  | Euler => x_base + dt *: f x_eval
  | Rk4 =>
      let k1 := f x_eval in
      let k2 := f (bcast x_eval (dt / 2%:R) k1) in
      let k3 := f (bcast x_eval (dt / 2%:R) k2) in
      let k4 := f (bcast x_eval dt k3) in
      x_base + (dt / 6%:R) *: (k1 + 2%:R *: k2 + 2%:R *: k3 + k4)
  end.

(** [np.any(np.isnan(output_signal))] *)
Definition has_nan (y : 'cV[option F]_ny) : bool := [exists i, y i 0 == None].

(** The measured output as numbers (used only when [has_nan] is false). *)
Definition to_num (y : 'cV[option F]_ny) : 'cV[F]_ny := \col_i odflt 0 (y i 0).

(** [np.linalg.inv] *)
Definition inv_py m (S : 'M[F]_m) : result 'M[F]_m :=
  if S \in unitmx then Ok (invmx S) else Err LinAlgError.

(** One step of the dynamics from the (pre-limited) history [xv] with the
    base point [xm], as the estimator ticks write it. *)
Definition step_dyn (P : plant) (e : engine) (ins : hist nu) (k : nat)
    (xv : hist n) (xm : 'cV[F]_n) : 'cV[F]_n :=
  let t := time_line e k in
  let handle_dyn := fun xx => dynamics P xx ins k (sample_time e) t in
  match time_type P with
  | Continuous => dynamic_runner handle_dyn xv xm (sample_time e) (solver_type e)
  | Discrete => handle_dyn xv
  end.

(** What a tick leaves in the object. *)
Definition store (e : engine) (ins : hist nu) (outs : ohist ny) (X : hist n)
    (x_post : 'cV[F]_n) (P_post : 'M[F]_n) : engine :=
  {| time_line := time_line e; n_steps := n_steps e;
     sample_time := sample_time e; solver_type := solver_type e;
     current_step := (current_step e).+1;
     inputs := ins; outputs := outs;
     states := upd X (current_step e).+1 x_post;
     covariance := P_post |}.

(** *** [Nonlinear.__nextstepEKF], lines 1025-1090 *)

(** The prediction part (lines 1030-1070). *)
Record ekf_pred := {
  ep_inputs : hist nu;
  ep_outputs : ohist ny;
  ep_states : hist n;
  ep_xp : 'cV[F]_n;
  ep_Pp : 'M[F]_n;
  ep_jac : jac
}.

Definition ekf_predict (P : plant) (e : engine) (u : 'cV[F]_nu)
    (y : 'cV[option F]_ny) : result ekf_pred :=
  let k := current_step e in
  (* current_time = self.time_line[0, self.current_step] *)
  if (n_steps e <= k)%N then Err IndexError else
  let t := time_line e k in
  let ins := upd (inputs e) k u in
  let outs := upd (outputs e) k y in
  r <- jacobians P (states e) ins k (sample_time e) t ;;
  let X := r.1 in
  let J := r.2 in
  let xm := X k in
  let xv := limit_pre P X in
  let xp := limit_post P (step_dyn P e ins k xv xm) in
  let Pp := jA J *m covariance e *m (jA J)^T + jL J *m q_matrix P *m (jL J)^T in
  Ok {| ep_inputs := ins; ep_outputs := outs; ep_states := X;
        ep_xp := xp; ep_Pp := Pp; ep_jac := J |}.

(** The posterior part (lines 1072-1085). *)
Definition ekf_correct (P : plant) (pr : ekf_pred) (y : 'cV[option F]_ny)
    : result ('cV[F]_n * 'M[F]_n) :=
  let xp := ep_xp pr in
  let Pp := ep_Pp pr in
  let H := jH (ep_jac pr) in
  let M := jM (ep_jac pr) in
  if ~~ has_nan y then
    Si <- inv_py (H *m Pp *m H^T + M *m r_matrix P *m M^T) ;;
    let K := Pp *m H^T *m Si in
    Ok (xp + K *m (to_num y - H *m xp), (1%:M - K *m H) *m Pp)
  else Ok (xp, Pp).

Definition ekf_tick (P : plant) (e : engine) (u : 'cV[F]_nu)
    (y : 'cV[option F]_ny) : result engine :=
  pr <- ekf_predict P e u y ;;
  post <- ekf_correct P pr y ;;
  Ok (store e (ep_inputs pr) (ep_outputs pr) (ep_states pr) post.1 post.2).

(** *** [Nonlinear.__nextstepUKF], lines 1093-1217 *)

(** Column [j] of a square matrix ([dSigma[:, j]]). *)
Definition colnat (j : nat) (S : 'M[F]_n) : 'cV[F]_n :=
  \col_r (if (insub j : option 'I_n) is Some c then S r c else 0).

(** [sp = np.concatenate((xm, xmCopy + dSigma, xmCopy - dSigma), axis=1)]:
    column [i] of the sigma-point matrix. *)
Definition sigma_point (xm : 'cV[F]_n) (dSigma : 'M[F]_n) (i : nat) : 'cV[F]_n :=
  if i == 0 then xm
  else if (i <= n)%N then xm + colnat i.-1 dSigma
  else xm - colnat (i.-1 - n) dSigma.

(** The propagation loop, lines 1135-1160.  [changed_full_state] is
    [self.states] itself, so writing its column [k] writes the history. *)
Fixpoint ukf_propagate (P : plant) (e : engine) (ins : hist nu) (k : nat)
    (xm : 'cV[F]_n) (sp : nat -> 'cV[F]_n) (w : seq F) (idx : seq nat)
    (X : hist n) (xp : 'cV[F]_n) (Xs : seq 'cV[F]_n)
    : hist n * 'cV[F]_n * seq 'cV[F]_n :=
  match idx with
  | [::] => (X, xp, Xs)
  | i :: idx' =>
      let X1 := upd X k (sp i) in
      let xv := limit_pre P X1 in
      let Xi := limit_post P (step_dyn P e ins k xv xm) in
      ukf_propagate P e ins k xm sp w idx' X1 (xp + nth 0 w i *: Xi) (rcons Xs Xi)
  end.

(** The output loop, lines 1180-1191, again through [self.states]. *)
Fixpoint ukf_measure (P : plant) (e : engine) (ins : hist nu) (k : nat)
    (w : seq F) (i : nat) (Xs : seq 'cV[F]_n)
    (X : hist n) (zb : 'cV[F]_ny) (Zs : seq 'cV[F]_ny)
    : hist n * 'cV[F]_ny * seq 'cV[F]_ny :=
  match Xs with
  | [::] => (X, zb, Zs)
  | Xi :: Xs' =>
      let X1 := upd X k Xi in
      let Zi := measurements P X1 ins k (sample_time e) (time_line e k) in
      ukf_measure P e ins k w i.+1 Xs' X1 (zb + nth 0 w i *: Zi) (rcons Zs Zi)
  end.

(** [dP.dot(np.diag(wc)).dot(dQ.transpose())] for the columns [dP], [dQ]. *)
Definition wcov m1 m2 (wc : seq F) (dP : seq 'cV[F]_m1) (dQ : seq 'cV[F]_m2)
    : 'M[F]_(m1, m2) :=
  \sum_(i <- iota 0 (size dP)) nth 0 wc i *: (nth 0 dP i *m (nth 0 dQ i)^T).

(** The prediction part (lines 1106-1166). *)
Record ukf_pred := {
  up_inputs : hist nu;
  up_outputs : ohist ny;
  up_states : hist n;
  up_Xs : seq 'cV[F]_n;
  up_xp : 'cV[F]_n;
  up_Pp : 'M[F]_n;
  up_jac : jac
}.

Definition ukf_predict (P : plant) (d : ukf_data) (e : engine)
    (u : 'cV[F]_nu) (y : 'cV[option F]_ny) : result ukf_pred :=
  let k := current_step e in
  if (n_steps e <= k)%N then Err IndexError else
  let t := time_line e k in
  let ins := upd (inputs e) k u in
  let outs := upd (outputs e) k y in
  r <- jacobians P (states e) ins k (sample_time e) t ;;
  let X := r.1 in
  let J := r.2 in
  let xm := X k in
  C <- cholesky (covariance e) ;;
  let dSigma := sqrt ((n_ukf d)%:R + lambd d) *: C^T in
  let sp := sigma_point xm dSigma in
  let w_m := wm_of d in
  let w_c := wc_of d in
  (* self.wm[i,0] for i < 2n+1, and np.diag(self.wc) against dPp *)
  if (size w_m < (2 * n)%N.+1)%N then Err IndexError else
  if (size w_c != (2 * n).+1)%N then Err ValueError else
  let '(X1, xp, Xs) := ukf_propagate P e ins k xm sp w_m (iota 0 (2 * n)%N.+1) X 0 [::] in
  let dPp := map (fun Xi => Xi - xp) Xs in
  let Pp := wcov w_c dPp dPp + jL J *m q_matrix P *m (jL J)^T in
  Ok {| up_inputs := ins; up_outputs := outs; up_states := X1;
        up_Xs := Xs; up_xp := xp; up_Pp := Pp; up_jac := J |}.

(** The posterior part (lines 1175-1212). *)
Definition ukf_correct (P : plant) (d : ukf_data) (e : engine) (pr : ukf_pred)
    (y : 'cV[option F]_ny) : result (hist n * 'cV[F]_n * 'M[F]_n) :=
  let k := current_step e in
  let xp := up_xp pr in
  let Pp := up_Pp pr in
  let w_m := wm_of d in
  let w_c := wc_of d in
  if ~~ has_nan y then
    let '(X2, zb, Zs) :=
      ukf_measure P e (up_inputs pr) k w_m 0 (up_Xs pr) (up_states pr) 0 [::] in
    let dPp := map (fun Xi => Xi - xp) (up_Xs pr) in
    let dSt := map (fun Zi => Zi - zb) Zs in
    let St := wcov w_c dSt dSt + jM (up_jac pr) *m r_matrix P *m (jM (up_jac pr))^T in
    let SiG := wcov w_c dPp dSt in
    Si <- inv_py St ;;
    let K := SiG *m Si in
    Ok (X2, xp + K *m (to_num y - zb), Pp - K *m SiG^T)
  else Ok (up_states pr, xp, Pp).

Definition ukf_tick (P : plant) (d : ukf_data) (e : engine) (u : 'cV[F]_nu)
    (y : 'cV[option F]_ny) : result engine :=
  pr <- ukf_predict P d e u y ;;
  post <- ukf_correct P d e pr y ;;
  Ok (store e (up_inputs pr) (up_outputs pr) post.1.1 post.1.2 post.2).

(** *** [Nonlinear.estimate] and [Nonlinear.reset] *)

Inductive mode := Simulator | EstimatorEKF | EstimatorUKF (d : ukf_data).

(** [estimate] returns 0 at once on a simulator. *)
Definition estimate (P : plant) (md : mode) (e : engine) (u : 'cV[F]_nu)
    (y : 'cV[option F]_ny) : result engine :=
  match md with
  | Simulator => Ok e
  | EstimatorEKF => ekf_tick P e u y
  | EstimatorUKF d => ukf_tick P d e u y
  end.

(** Lines 1237-1246: only the step counter goes back to 0. *)
Definition reset (e : engine) : engine :=
  {| time_line := time_line e; n_steps := n_steps e;
     sample_time := sample_time e; solver_type := solver_type e;
     current_step := 0;
     inputs := inputs e; outputs := outputs e; states := states e;
     covariance := covariance e |}.

Fixpoint run (P : plant) (md : mode) (e : engine)
    (us : seq ('cV[F]_nu * 'cV[option F]_ny)) : result engine :=
  match us with
  | [::] => Ok e
  | (u, y) :: us' => e' <- estimate P md e u y ;; run P md e' us'
  end.

(** *** [Nonlinear.__init__], lines 899-921 (estimator attributes apart) *)

(** [self.sample_time = np.mean(tl[0, 1:-1] - tl[0, 0:-2])] *)
Definition mean_step (tl : seq F) : F :=
  (\sum_(i <- iota 0 (size tl - 2)) (nth 0 tl i.+1 - nth 0 tl i)) / (size tl - 2)%:R.

(** [x0] is [initial_states] (or the [initial] option) and [P0] the class
    attribute [covariance], which the object reads until a tick assigns
    its own [self.covariance]. *)
Definition nonlinear_init (tl : seq F) (s : solver) (x0 : 'cV[F]_n) (P0 : 'M[F]_n)
    : engine :=
  {| time_line := fun j => nth 0 tl j; n_steps := size tl;
     sample_time := mean_step tl; solver_type := s;
     current_step := 0;
     inputs := fun _ => 0; outputs := fun _ => \col_i Some 0;
     states := upd (fun _ => 0) 0 x0;
     covariance := P0 |}.

(** ** [LinearKalmanFilter], lines 254-401 *)

Record lkf := {
  lA : 'M[F]_n;
  lB : 'M[F]_(n, nu);
  lC : 'M[F]_(ny, n);
  lD : 'M[F]_(ny, nu);
  lQ : 'M[F]_n;
  lR : 'M[F]_ny;
  x_pr : 'cV[F]_n;
  x_ps : 'cV[F]_n;
  res : 'cV[F]_ny;
  lK : 'M[F]_(n, ny);
  P_pr : 'M[F]_n;
  P_ps : 'M[F]_n
}.

(** [LinearKalmanFilter.__call__(inputs, outputs)] *)
Definition lkf_call (f : lkf) (u : 'cV[F]_nu) (y : 'cV[F]_ny) : result lkf :=
  let A := lA f in
  let C := lC f in
  let xpr := A *m x_ps f + lB f *m u in
  let Ppr := A *m P_ps f *m A^T + lQ f in
  Si <- inv_py (C *m Ppr *m C^T + lR f) ;;
  let K := Ppr *m C^T *m Si in
  let r := y - C *m xpr in
  Ok {| lA := A; lB := lB f; lC := C; lD := lD f; lQ := lQ f; lR := lR f;
        x_pr := xpr; x_ps := xpr + K *m r; res := r; lK := K;
        P_pr := Ppr; P_ps := (1%:M - K *m C) *m Ppr |}.

(** The posterior trajectories of the two filters over a run. *)
Fixpoint lkf_traj (f : lkf) (us : seq ('cV[F]_nu * 'cV[F]_ny))
    : result (seq ('cV[F]_n * 'M[F]_n)) :=
  match us with
  | [::] => Ok [::]
  | (u, y) :: us' =>
      f' <- lkf_call f u y ;;
      rest <- lkf_traj f' us' ;;
      Ok ((x_ps f', P_ps f') :: rest)
  end.

(** A measured output with no missing entry. *)
Definition measured (y : 'cV[F]_ny) : 'cV[option F]_ny := \col_i Some (y i 0).

Fixpoint ekf_traj (P : plant) (e : engine) (us : seq ('cV[F]_nu * 'cV[F]_ny))
    : result (seq ('cV[F]_n * 'M[F]_n)) :=
  match us with
  | [::] => Ok [::]
  | (u, y) :: us' =>
      e' <- ekf_tick P e u (measured y) ;;
      rest <- ekf_traj P e' us' ;;
      Ok ((states e' (current_step e'), covariance e') :: rest)
  end.

(** A block whose methods are linear: [dynamics] returns [A x + B u],
    [measurements] [H x], the limitations return their argument, and
    [_jacobians] returns [(A, B, H, 0, I, I)] without touching [x]. *)
Definition linear_plant (A : 'M[F]_n) (B : 'M[F]_(n, nu)) (H : 'M[F]_(ny, n))
    (Q : 'M[F]_n) (R : 'M[F]_ny) : plant :=
  {| time_type := Discrete;
     dynamics := fun X U k _ _ => A *m X k + B *m U k;
     measurements := fun X U k _ _ => H *m X k;
     limit_pre := fun X => X;
     limit_post := fun x => x;
     jacobians := fun X U k _ _ =>
       Ok (X, {| jA := A; jB := B; jH := H; jD := 0; jL := 1%:M; jM := 1%:M |});
     q_matrix := Q;
     r_matrix := R |}.

End Nonlinear.

(** ** The D-matrix normalisation of [LtiGroup] (lines 80-81) and
    [LinearKalmanFilter] (lines 311-312)

    A numpy matrix given as the list of its rows. *)
Definition pymat := seq (seq F).

(** [np.size(M, 0)] and [np.size(M, 1)] *)
Definition nrows (M : pymat) : nat := size M.
Definition ncols (M : pymat) : nat := size (head [::] M).

(** [np.array(D).all()]: every entry is nonzero. *)
Definition np_all (D : pymat) : bool := all (all (fun x => x != 0)) D.

(** [np.zeros((r, c))] *)
Definition zeros (r c : nat) : pymat := nseq r (nseq c 0).

(** [if np.array(D).all() == 0: D = np.zeros((np.size(C, 0), np.size(B, 1)))]
    followed by [self.D = np.array(self.system.D)]. *)
Definition normalize_D (B C D : pymat) : pymat :=
  if np_all D == false then zeros (nrows C) (ncols B) else D.

(** The [D] an [LtiGroup] built from [(A, B, C, D)] stores. *)
Definition ltigroup_D (A B C D : pymat) : pymat := normalize_D B C D.
(** The [D] a [LinearKalmanFilter] built from [(A, B, C, D)] (or from a
    system object with these attributes) stores. *)
Definition lkf_D (A B C D : pymat) : pymat := normalize_D B C D.

(** ** [Scope.append] and [Scope.select] ([core/caller/scope_engine.py]) *)

(** A [Scope]: its time line, [n_signals], and the signal matrix as its
    rows together with its number of columns (kept apart so that a matrix
    with no rows still has a shape). *)
Record scope := {
  sc_time_line : seq F;
  sc_n_signals : nat;
  sc_signals : pymat;
  sc_cols : nat
}.

(** A Python index into a sequence of length [len]: negative indices count
    from the end; out of range is [None] (numpy raises [IndexError]). *)
Definition py_index (len : nat) (i : int) : option nat :=
  match i with
  | Posz j => if (j < len)%N then Some j else None
  | Negz j => if (j < len)%N then Some (len - j.+1)%N else None
  end.

(** [M[sel]] / [M[sel, :]] for a 1-D index list [sel]. *)
Fixpoint take_rows (M : pymat) (sel : seq int) : result pymat :=
  match sel with
  | [::] => Ok [::]
  | i :: sel' =>
      match py_index (size M) i with
      | None => Err IndexError
      | Some j => rest <- take_rows M sel' ;; Ok (nth [::] M j :: rest)
      end
  end.

(** [Scope(time_line = tl, n_signals = ns, initial = init)] for a 2-D
    [initial] with [size init] rows and [c] columns (lines 65-100). *)
Definition scope_new (tl : seq F) (ns : nat) (init : pymat) (c : nat) : result scope :=
  let N := size tl in
  let r := size init in
  if (r + c == ns)%N || (r + c == ns.+1)%N then
    (* initial = reshape(initial, (-1, 1)); signals = initial * ones(ns, N) *)
    let v := flatten init in
    if size v == ns then
      Ok {| sc_time_line := tl; sc_n_signals := ns;
            sc_signals := [seq nseq N (x * 1) | x <- v]; sc_cols := N |}
    else if size v == 1%N then
      Ok {| sc_time_line := tl; sc_n_signals := ns;
            sc_signals := nseq ns (nseq N (head 0 v * 1)); sc_cols := N |}
    else if ns == 1%N then
      Ok {| sc_time_line := tl; sc_n_signals := ns;
            sc_signals := [seq nseq N (x * 1) | x <- v]; sc_cols := N |}
    else Err ValueError
  else if (r + c != 1)%N && (r + c != 2)%N then
    if ((r == ns) && (c == N)) || (N == 1%N) || (N == c) then
      Ok {| sc_time_line := tl; sc_n_signals := r; sc_signals := init; sc_cols := c |}
    else Err ValueError
  else
    Ok {| sc_time_line := tl; sc_n_signals := ns; sc_signals := zeros ns N; sc_cols := N |}.

(** [Scope.append(other, select)] for a single [Scope] [other] (lines
    285-291, 313-314); [None] is the default [select = False].  A Python
    list never equals [False], so every list, the empty one included,
    takes the selecting branch. *)
Definition scope_append (s other : scope) (sel : option (seq int)) : result scope :=
  match sel with
  | None =>
      if sc_cols s != sc_cols other then Err ValueError else
      scope_new (sc_time_line s) (sc_n_signals s + sc_n_signals other)
        (sc_signals s ++ sc_signals other) (sc_cols s)
  | Some l =>
      r1 <- take_rows (sc_signals s) l ;;
      r2 <- take_rows (sc_signals other) l ;;
      if sc_cols s != sc_cols other then Err ValueError else
      scope_new (sc_time_line s) (2 * size l)%N (r1 ++ r2) (sc_cols s)
  end.

(** [Scope.select(rows_to_select)], lines 335-350. *)
Definition scope_select (s : scope) (rows : seq int) : result scope :=
  r <- take_rows (sc_signals s) rows ;;
  scope_new (sc_time_line s) (size rows) r (sc_cols s).

(** ** [Lorenz._jacobians] ([blocks/general_blocks.py], lines 323-347)

    The body of the method as Python runs it: a name assigned anywhere in
    a function body is local to it (reading it before the assignment raises
    [UnboundLocalError]); any other name is looked up in the module's
    globals, then in the builtins, and raises [NameError] when absent. *)

Inductive val :=
| VNum (x : F)
| VArr (r c : nat) (a : nat -> nat -> F)
| VTuple (vs : seq val)
| VObj.

Inductive expr :=
| EName (s : string)
| ENum (x : F)                 (* a literal, or an attribute [self.mp_*] *)
| EX (i : nat)                 (* x[i, k] *)
| ENp (v : val)                (* a call np.<f>(...) returning v *)
| ENeg (a : expr)
| ESub (a b : expr)
| ETuple (es : seq expr).

Inductive stmt :=
| SAssign (s : string) (e : expr)            (* s = e *)
| SSetItem (s : string) (i j : nat) (e : expr) (* s[i, j] = e *)
| SReturn (e : expr).

(** A namespace: names bound to values. *)
Definition namespace := seq (string * val).

Fixpoint assoc (ns : namespace) (s : string) : option val :=
  match ns with
  | [::] => None
  | (s', v) :: ns' => if String.eqb s s' then Some v else assoc ns' s
  end.

Definition mem_str (s : string) (l : seq string) : bool := has (String.eqb s) l.

(** The names of [builtins] a block method may use; none of them is a
    single capital letter. *)
Definition builtins : seq string :=
  [:: "abs"; "all"; "any"; "bool"; "dict"; "enumerate"; "float"; "int";
      "isinstance"; "len"; "list"; "max"; "min"; "print"; "range"; "round";
      "str"; "sum"; "super"; "tuple"; "type"; "zip"]%string.

Definition lookup_name (ge : namespace) (locs : seq string) (le : namespace)
    (s : string) : result val :=
  if mem_str s locs then
    match assoc le s with Some v => Ok v | None => Err (UnboundLocalError s) end
  else match assoc ge s with
       | Some v => Ok v
       | None => if mem_str s builtins then Ok VObj else Err (NameError s)
       end.

Definition num_op (f : F -> F) (v : val) : result val :=
  match v with VNum x => Ok (VNum (f x)) | _ => Err TypeError end.

Fixpoint eval_expr (ge : namespace) (locs : seq string) (le : namespace)
    (X : hist 3) (k : nat) (e : expr) : result val :=
  match e with
  | EName s => lookup_name ge locs le s
  | ENum x => Ok (VNum x)
  | EX i =>
      match (insub i : option 'I_3) with
      | Some o => Ok (VNum (X k o 0))
      | None => Err IndexError
      end
  | ENp v => _ <- lookup_name ge locs le "np"%string ;; Ok v
  | ENeg a => v <- eval_expr ge locs le X k a ;; num_op (fun x => - x) v
  | ESub a b =>
      va <- eval_expr ge locs le X k a ;;
      vb <- eval_expr ge locs le X k b ;;
      match va, vb with
      | VNum x, VNum z => Ok (VNum (x - z))
      | _, _ => Err TypeError
      end
  | ETuple es =>
      vs <- (fix go (es : seq expr) : result (seq val) :=
               match es with
               | [::] => Ok [::]
               | e1 :: es' =>
                   v <- eval_expr ge locs le X k e1 ;;
                   vs <- go es' ;; Ok (v :: vs)
               end) es ;;
      Ok (VTuple vs)
  end.

(** The names a body assigns: its local variables. *)
Definition locals_of (body : seq stmt) : seq string :=
  flatten [seq (if st is SAssign s _ then [:: s] else [::]) | st <- body].

(** [a[i, j] = x] on an array value. *)
Definition set_item (a : val) (i j : nat) (x : val) : result val :=
  match a, x with
  | VArr r c f, VNum z =>
      if (i < r)%N && (j < c)%N then
        Ok (VArr r c (fun i' j' => if (i' == i) && (j' == j) then z else f i' j'))
      else Err IndexError
  | _, _ => Err TypeError
  end.

Fixpoint exec_body (ge : namespace) (locs : seq string) (le : namespace)
    (X : hist 3) (k : nat) (body : seq stmt) : result val :=
  match body with
  | [::] => Ok VObj
  | SAssign s e :: body' =>
      v <- eval_expr ge locs le X k e ;;
      exec_body ge locs ((s, v) :: le) X k body'
  | SSetItem s i j e :: body' =>
      v <- eval_expr ge locs le X k e ;;
      a <- lookup_name ge locs le s ;;
      a' <- set_item a i j v ;;
      exec_body ge locs ((s, a') :: le) X k body'
  | SReturn e :: _ => eval_expr ge locs le X k e
  end.

Definition mp_sigma : F := 10%:R.
Definition mp_ro : F := 28%:R.
Definition mp_beta : F := 8%:R / 3%:R.

(** [np.eye(r, c)] *)
Definition eye_val (r c : nat) : val :=
  VArr r c (fun i j => if i == j then 1 else 0).

Definition lorenz_jacobians_body : seq stmt :=
  [:: SAssign "A" (ENp (VArr 3 3 (fun _ _ => 0)));
      SSetItem "A" 0 0 (ENum (- mp_sigma));
      SSetItem "A" 0 1 (ENum mp_sigma);
      SSetItem "A" 0 2 (ENum 0);
      SSetItem "A" 1 0 (ESub (ENum mp_ro) (EX 2));
      SSetItem "A" 1 1 (ENum (-1));
      SSetItem "A" 1 2 (ENeg (EX 0));
      SSetItem "A" 2 0 (EX 1);
      SSetItem "A" 2 1 (EX 0);
      SSetItem "A" 2 2 (ENum (- mp_beta));
      SAssign "L" (ENp (eye_val 3 3));
      SAssign "H" (ENp (eye_val 2 3));
      SAssign "M" (ENp (eye_val 2 2));
      SReturn (ETuple [:: EName "A"; EName "B"; EName "H";
                          EName "D"; EName "L"; EName "M"])]%string.

(** [Lorenz._jacobians(self, x, input_signal, k, st, t)] in the module
    namespace [ge]. *)
Definition lorenz_jacobians_py (ge : namespace) (X : hist 3) (k : nat) : result val :=
  exec_body ge (locals_of lorenz_jacobians_body) [::] X k lorenz_jacobians_body.

(** Unpacking [[A, B, H, D, L, M] = ...] into matrices. *)
Definition mx_of_val (r c : nat) (v : val) : result 'M[F]_(r, c) :=
  match v with
  | VArr r' c' f =>
      if (r' == r) && (c' == c) then Ok (\matrix_(i, j) f i j) else Err ValueError
  | _ => Err ValueError
  end.

Definition jac_of_val (v : val) : result (jac 3 1 2) :=
  match v with
  | VTuple [:: a; b; h; d; l; m] =>
      A <- mx_of_val 3 3 a ;; B <- mx_of_val 3 1 b ;; H <- mx_of_val 2 3 h ;;
      D <- mx_of_val 2 1 d ;; L <- mx_of_val 3 3 l ;; M <- mx_of_val 2 2 m ;;
      Ok {| jA := A; jB := B; jH := H; jD := D; jL := L; jM := M |}
  | _ => Err ValueError
  end.

(** [x[i, k]] *)
Definition xk (X : hist 3) (k i : nat) : F := X k (inord i) 0.

(** The [Lorenz] block (lines 259-348) in the module namespace [ge]. *)
Definition lorenz_plant (ge : namespace) : plant 3 1 2 :=
  {| time_type := Continuous;
     dynamics := fun X U k st t =>
       \col_(i < 3)
         (if i == 0 :> nat then mp_sigma * xk X k 1 - mp_sigma * xk X k 0 + U k 0 0
          else if i == 1 :> nat then mp_ro * xk X k 0 - xk X k 0 * xk X k 2 - xk X k 1
          else xk X k 0 * xk X k 1 - mp_beta * xk X k 2);
     measurements := fun X U k st t =>
       \col_(i < 2) (if i == 0 :> nat then xk X k 0 else xk X k 1);
     limit_pre := fun X => X;
     limit_post := fun x => x;
     jacobians := fun X U k st t =>
       v <- lorenz_jacobians_py ge X k ;; J <- jac_of_val v ;; Ok (X, J);
     q_matrix := 1%:M;
     r_matrix := 1%:M |}.

End Engine.

Arguments nonlinear_init {F n nu ny} tl s x0 P0.

(** * Further methods of the engine and of [Scope] *)

Section Calls.

Variable F : fieldType.

(** ** [Nonlinear.__call__] (lines 939-1002): one simulation step

    [estimator] is the flag set by [__init__]; an estimator returns 0 at
    once and changes nothing.  [x_noise] and [y_noise] are given as the
    columns numpy broadcasts them to (the default [np.array([0])] is the
    zero column).  The simulator stores plain numbers in [self.outputs]. *)
Section Simulator.

Variables n nu ny : nat.

Definition sim_call (P : plant F n nu ny) (estimator : bool) (e : engine F n nu ny)
    (u : 'cV[F]_nu) (x_noise : 'cV[F]_n) (y_noise : 'cV[F]_ny)
    : result (engine F n nu ny) :=
  if estimator then Ok e else
  let k := current_step e in
  (* current_time = self.time_line[0, self.current_step] *)
  if (n_steps e <= k)%N then Err IndexError else
  let ins := upd (inputs e) k u in
  let xv := limit_pre P (states e) in
  let xo := states e k in
  let x := limit_post P (step_dyn P e ins k xv xo) in
  let y := measurements P (states e) ins k (sample_time e) (time_line e k) in
  Ok {| time_line := time_line e; n_steps := n_steps e;
        sample_time := sample_time e; solver_type := solver_type e;
        current_step := k.+1; inputs := ins;
        outputs := upd (outputs e) k (measured (y + y_noise));
        states := upd (states e) k.+1 (x + x_noise);
        covariance := covariance e |}.

(** Successive calls [block(u, x_noise, y_noise)] of a simulator. *)
Fixpoint sim_run (P : plant F n nu ny) (e : engine F n nu ny)
    (cs : seq ('cV[F]_nu * 'cV[F]_n * 'cV[F]_ny)) : result (engine F n nu ny) :=
  match cs with
  | [::] => Ok e
  | (u, xn, yn) :: cs' => e' <- sim_call P false e u xn yn ;; sim_run P e' cs'
  end.

(** The state written and the output recorded by each call. *)
Fixpoint sim_traj (P : plant F n nu ny) (e : engine F n nu ny)
    (cs : seq ('cV[F]_nu * 'cV[F]_n * 'cV[F]_ny))
    : result (seq ('cV[F]_n * 'cV[option F]_ny)) :=
  match cs with
  | [::] => Ok [::]
  | (u, xn, yn) :: cs' =>
      e' <- sim_call P false e u xn yn ;;
      rest <- sim_traj P e' cs' ;;
      Ok ((states e' (current_step e'), outputs e' (current_step e)) :: rest)
  end.

End Simulator.

(** The keyword loop of [Nonlinear.__init__] (lines 912-919) as far as the
    [estimator] flag goes: [if key == 'estimator': self.estimator = True],
    whatever the value given with the key. *)
Definition nonlinear_estimator (T : Type) (kwargs : seq (string * T)) : bool :=
  foldl (fun est kv => if String.eqb kv.1 "estimator"%string then true else est) false kwargs.

(** ** [LtiGroup.__call__] (lines 184-218)

    [n_ltis] copies of one system: the states are an [n x n_ltis] matrix
    and [self.inputs] the delay line of [delay + 1] input matrices, oldest
    first ([self.inputs[:, :, j]]). *)
Section Lti.

Variables n ni no nl : nat.

Record lti := {
  lt_A : 'M[F]_n;
  lt_B : 'M[F]_(n, ni);
  lt_C : 'M[F]_(no, n);
  lt_D : 'M[F]_(no, ni);
  lt_Q : 'M[F]_n;
  lt_R : 'M[F]_no;
  lt_Q_ch : 'M[F]_n;
  lt_R_ch : 'M[F]_no;
  lt_newest : bool;
  lt_auto_noise : bool;
  lt_inputs : seq 'M[F]_(ni, nl);
  lt_states : 'M[F]_(n, nl);
  lt_outputs : 'M[F]_(no, nl)
}.

(** An [(m, 1)] column broadcast over the [n_ltis] systems. *)
Definition bcast_cols m (v : 'cV[F]_m) : 'M[F]_(m, nl) := \matrix_(i, j) v i 0.

(** The arguments of one call: the input, the noises as broadcast to the
    shape of the states and outputs (the default 0 is the zero matrix), and
    the draws [np.random.randn(n_states, 1)], [np.random.randn(n_outputs, 1)]
    used when the noise is injected automatically. *)
Record lti_args := {
  a_u : 'M[F]_(ni, nl);
  a_xn : 'M[F]_(n, nl);
  a_yn : 'M[F]_(no, nl);
  a_rx : 'cV[F]_n;
  a_ry : 'cV[F]_no
}.

Definition lti_call (g : lti) (a : lti_args) : result lti :=
  match lt_inputs g with
  | [::] => Err IndexError (* self.inputs[:, :, -1] on an empty axis *)
  | _ :: older =>
      (* np.roll(self.inputs, -1, axis=2); self.inputs[:, :, -1] = u *)
      let buf := rcons older (a_u a) in
      let u0 := head 0 buf in
      let x := lt_A g *m lt_states g + lt_B g *m u0 in
      let xn := if lt_auto_noise g && (lt_Q g != 0)
                then bcast_cols (lt_Q_ch g *m a_rx a) else a_xn a in
      let x := x + xn in
      let y := lt_C g *m (if lt_newest g then x else lt_states g) + lt_D g *m u0 in
      let yn := if lt_auto_noise g && (lt_R g != 0)
                then bcast_cols (lt_R_ch g *m a_ry a) else a_yn a in
      Ok {| lt_A := lt_A g; lt_B := lt_B g; lt_C := lt_C g; lt_D := lt_D g;
            lt_Q := lt_Q g; lt_R := lt_R g; lt_Q_ch := lt_Q_ch g; lt_R_ch := lt_R_ch g;
            lt_newest := lt_newest g; lt_auto_noise := lt_auto_noise g;
            lt_inputs := buf; lt_states := x; lt_outputs := y + yn |}
  end.

(** The states and outputs after each of successive calls. *)
Fixpoint lti_traj (g : lti) (cs : seq lti_args) : result (seq ('M[F]_(n, nl) * 'M[F]_(no, nl))) :=
  match cs with
  | [::] => Ok [::]
  | a :: cs' =>
      g' <- lti_call g a ;;
      rest <- lti_traj g' cs' ;;
      Ok ((lt_states g', lt_outputs g') :: rest)
  end.

(** The same group with another content of its delay line. *)
Definition with_inputs (g : lti) (buf : seq 'M[F]_(ni, nl)) : lti :=
  {| lt_A := lt_A g; lt_B := lt_B g; lt_C := lt_C g; lt_D := lt_D g;
     lt_Q := lt_Q g; lt_R := lt_R g; lt_Q_ch := lt_Q_ch g; lt_R_ch := lt_R_ch g;
     lt_newest := lt_newest g; lt_auto_noise := lt_auto_noise g;
     lt_inputs := buf; lt_states := lt_states g; lt_outputs := lt_outputs g |}.

(** The same call with another input. *)
Definition with_u (a : lti_args) (u : 'M[F]_(ni, nl)) : lti_args :=
  {| a_u := u; a_xn := a_xn a; a_yn := a_yn a; a_rx := a_rx a; a_ry := a_ry a |}.

(** The calls of a one-slot group that replay the calls [cs] of a group whose
    delay line holds [buf] ahead of them: the input fed at each call is the
    oldest one still in the line. *)
Definition delayed_args (buf : seq 'M[F]_(ni, nl)) (cs : seq lti_args) : seq lti_args :=
  [seq with_u c.1 c.2 | c <- zip cs (buf ++ map a_u cs)].

End Lti.

(** ** More of [Scope] ([core/caller/scope_engine.py]) *)

(** [a % N] in Python, for [N > 0]. *)
Definition py_mod (a : int) (N : nat) : nat := `|(a %% N)%Z|%N.

(** [Scope.roll(shift_value)], lines 352-366: [np.roll(signals, shift,
    axis=1)] moves entry [j] of every row to [(j + shift) % N]. *)
Definition scope_roll (s : scope F) (shift : int) : result (scope F) :=
  let N := sc_cols s in
  scope_new (sc_time_line s) (sc_n_signals s)
    [seq rotr (py_mod shift N) row | row <- sc_signals s] N.

(** [np.delete(M, rows, axis=0)]: an index out of range raises
    [IndexError]; the rows left keep their order. *)
Definition delete_rows (M : pymat F) (rows : seq int) : result (pymat F) :=
  if has (fun i => py_index (size M) i == None) rows then Err IndexError else
  let idx := pmap (py_index (size M)) rows in
  Ok [seq nth [::] M i | i <- iota 0 (size M) & i \notin idx].

(** [Scope.remove(rows_to_remove)], lines 317-333.  A negative
    [n_signals] makes [np.zeros] in [Scope.__init__] raise [ValueError]. *)
Definition scope_remove (s : scope F) (rows : seq int) : result (scope F) :=
  sig <- delete_rows (sc_signals s) rows ;;
  if (sc_n_signals s < size rows)%N then Err ValueError else
  scope_new (sc_time_line s) (sc_n_signals s - size rows) sig (sc_cols s).

(** A [Scope] object together with its [current_step]. *)
Record scope_obj := {
  so_scope : scope F;
  so_step : nat
}.

(** [a + b] for two 1-D numpy arrays, with broadcasting. *)
Definition np_add (a b : seq F) : result (seq F) :=
  if size a == size b then Ok [seq x.1 + x.2 | x <- zip a b]
  else if size a == 1%N then Ok [seq head 0 a + y | y <- b]
  else if size b == 1%N then Ok [seq x + head 0 b | x <- a]
  else Err ValueError.

(** [M[:, k] = v] for a column [v] of one entry per row. *)
Definition set_col (M : pymat F) (k : nat) (v : seq F) : pymat F :=
  [seq set_nth 0 (nth [::] M i) k (nth 0 v i) | i <- iota 0 (size M)].

(** [Scope.get(data, noise = var)], lines 103-133, with [noise] the draw
    [np.random.normal(0, var, [n_signals, 1])]:
    [self.signals[:, self.current_step] = data.flatten() + noise.flatten()]
    (the right-hand side is evaluated first; then the column index is
    checked; then the value must have one entry per row, or a single one),
    and [self.current_step += 1]. *)
Definition scope_get (o : scope_obj) (data noise : seq F) : result scope_obj :=
  let s := so_scope o in
  let k := so_step o in
  v <- np_add data noise ;;
  if (sc_cols s <= k)%N then Err IndexError else
  let M := sc_signals s in
  let put := fun w =>
    Ok {| so_scope := {| sc_time_line := sc_time_line s; sc_n_signals := sc_n_signals s;
                         sc_signals := set_col M k w; sc_cols := sc_cols s |};
          so_step := k.+1 |} in
  if size v == size M then put v
  else if size v == 1%N then put (nseq (size M) (head 0 v))
  else Err ValueError.

(** Successive calls [scope.get(data, noise)]. *)
Fixpoint scope_gets (o : scope_obj) (ds : seq (seq F * seq F)) : result scope_obj :=
  match ds with
  | [::] => Ok o
  | (d, z) :: ds' => o' <- scope_get o d z ;; scope_gets o' ds'
  end.

(** The calls of a one-column group fed with the simulator's inputs and noises. *)
Definition sim_args n nu ny (cs : seq ('cV[F]_nu * 'cV[F]_n * 'cV[F]_ny)) :
    seq (lti_args n nu ny 1) :=
  [seq {| a_u := c.1.1; a_xn := c.1.2; a_yn := c.2; a_rx := 0; a_ry := 0 |} | c <- cs].

End Calls.

Arguments nonlinear_estimator {T} kwargs.

(** ** The statement [x += i] on a [Scope] or [Nonlinear] object

    Both [__iadd__] methods (scope_engine.py lines 164-166,
    dynamic_engine.py lines 1222-1235) add [i] to [self.current_step] and
    return nothing.  Python binds the variable to what [__iadd__] returns,
    so after [x += i] the name [x] holds [None]; [None += i] raises
    [TypeError].  A variable holds [None] or a reference to an object; the
    objects' step counters are a store indexed by reference. *)
Inductive pyref := PyNone | PyObj (l : nat).

Definition py_env := seq (string * pyref).

Fixpoint env_get (env : py_env) (x : string) : option pyref :=
  match env with
  | [::] => None
  | (y, r) :: env' => if String.eqb x y then Some r else env_get env' x
  end.

Definition aug_add (env : py_env) (steps : nat -> nat) (x : string) (i : nat)
    : result (py_env * (nat -> nat)) :=
  match env_get env x with
  | None => Err (NameError x)
  | Some PyNone => Err TypeError
  | Some (PyObj l) =>
      let steps' := upd steps l (steps l + i)%N in
      Ok ((x, PyNone) :: env, steps')
  end.

(** * Concrete instances

    Small inputs over the rationals at which the properties below are
    evaluated.  [sqrt_ex] and [chol_ex] stand for [np.sqrt] and
    [np.linalg.cholesky]; they agree with them on the only arguments the
    instances below give them (the number 1 and identity matrices). *)
Module Ex.

Definition sqrt_ex (x : rat) : rat := x.
Definition chol_ex m (S : 'M[rat]_m) : result 'M[rat]_m := Ok S.

(** A one-state block [x' = x], [y = x], with [Q = R = 1]. *)
Definition plant1 : plant rat 1 1 1 := linear_plant 1%:M 0 1%:M 1%:M 1%:M.

(** A run over the time line [0, 1, 2] from [x0 = 0], [P0 = 1]. *)
Definition tl3 : seq rat := [:: 0; 1; 2].
Definition engine0 : engine rat 1 1 1 := nonlinear_init tl3 Euler 0 1%:M.

Definition u0 : 'cV[rat]_1 := 0.
(** The missing-measurement marker. *)
Definition y_nan : 'cV[option rat]_1 := \col_i None.

(** A user block with one state that also declares [num_states = 1],
    tuned with [alpha = 1], [kappa = 0]. *)
Definition cfg1 : ukf_cfg rat :=
  {| cfg_n_states := 1; cfg_num_states := Some 1%N; cfg_alpha := 1; cfg_kappa := 0 |}.

(** The UKF attributes of the [QuadrupleTank] class (no [num_states]). *)
Definition cfg_quadruple_tank : ukf_cfg rat :=
  {| cfg_n_states := 4; cfg_num_states := None;
     cfg_alpha := 2%:R / 10%:R; cfg_kappa := 80%:R |}.

End Ex.

(** * Properties *)

Section Proofs.

Variable F : fieldType.
Variable sqrt : F -> F.
Variable cholesky : forall m, 'M[F]_m -> result 'M[F]_m.

Lemma bind_Ok A B (a : A) (k : A -> result B) : bind (Ok a) k = k a.
Proof. by []. Qed.

Section Ticks.

Variables n nu ny : nat.
Implicit Types (P : plant F n nu ny) (e : engine F n nu ny).

Lemma ekf_tick_nan P e u y :
  has_nan y ->
  ekf_tick P e u y =
    (pr <- ekf_predict P e u y ;;
     Ok (store e (ep_inputs pr) (ep_outputs pr) (ep_states pr) (ep_xp pr) (ep_Pp pr))).
Proof. by move=> Hy; rewrite /ekf_tick /ekf_correct Hy /=; case: ekf_predict. Qed.

Lemma ukf_tick_nan P (d : ukf_data F) e u y :
  has_nan y ->
  ukf_tick sqrt cholesky P d e u y =
    (pr <- ukf_predict sqrt cholesky P d e u y ;;
     Ok (store e (up_inputs pr) (up_outputs pr) (up_states pr) (up_xp pr) (up_Pp pr))).
Proof. by move=> Hy; rewrite /ukf_tick /ukf_correct Hy /=; case: ukf_predict. Qed.

(** C3: on a tick whose output carries a not-a-number entry, both
    estimators store the prediction as the posterior (state at column
    [k+1], covariance), and they raise exactly when the prediction does. *)
Theorem missing_measurement_prediction_only P (d : ukf_data F) e u y :
  has_nan y ->
  ekf_tick P e u y =
    (pr <- ekf_predict P e u y ;;
     Ok (store e (ep_inputs pr) (ep_outputs pr) (ep_states pr) (ep_xp pr) (ep_Pp pr)))
  /\ ukf_tick sqrt cholesky P d e u y =
    (pr <- ukf_predict sqrt cholesky P d e u y ;;
     Ok (store e (up_inputs pr) (up_outputs pr) (up_states pr) (up_xp pr) (up_Pp pr))).
Proof.
by move=> Hy; split; [apply: ekf_tick_nan | apply: ukf_tick_nan].
Qed.

(** C7 (as the code has it): a tick that succeeds writes the supplied
    output, not-a-number entries included, into column [k] of the output
    history and the input into column [k] of the input history; the other
    columns keep their values. *)
Theorem tick_records_output_always P (d : ukf_data F) e u y e' :
  (ekf_tick P e u y = Ok e' \/ ukf_tick sqrt cholesky P d e u y = Ok e') ->
  outputs e' = upd (outputs e) (current_step e) y /\
  inputs e' = upd (inputs e) (current_step e) u.
Proof.
rewrite /ekf_tick /ukf_tick.
case=> [|]; [rewrite /ekf_predict | rewrite /ukf_predict];
  case: (n_steps e <= current_step e)%N => //=;
  case: jacobians => [[X J]|] //=.
- by case: ekf_correct => [post|] //= [<-].
- case: cholesky => [C|] //=.
  case: ifP => // _; case: ifP => // _.
  case: ukf_propagate => [[X1 xp] Xs] /=.
  by case: ukf_correct => [post|] //= [<-].
Qed.


Lemma has_nan_measured (y : 'cV[F]_ny) : has_nan (measured y) = false.
Proof. by apply/negbTE/existsP => -[i]; rewrite mxE. Qed.

Lemma to_num_measured (y : 'cV[F]_ny) : to_num (measured y) = y.
Proof. by apply/matrixP => i j; rewrite !mxE /= (ord1 j). Qed.

Lemma upd_at T (h : nat -> T) k v : upd h k v k = v.
Proof. by rewrite /upd eqxx. Qed.

Lemma lkf_call_model (f f' : lkf F n nu ny) u y :
  lkf_call f u y = Ok f' ->
  [/\ lA f' = lA f, lB f' = lB f, lC f' = lC f, lQ f' = lQ f & lR f' = lR f].
Proof. by rewrite /lkf_call; case: inv_py => //= Si [<-]. Qed.

Section LinearPlant.

Variables (P : plant F n nu ny) (J : jac F n nu ny).
Variables (A : 'M[F]_n) (B : 'M[F]_(n, nu)) (H : 'M[F]_(ny, n)).
Variables (Q : 'M[F]_n) (R : 'M[F]_ny).
Hypothesis P_discrete : time_type P = Discrete.
Hypothesis P_dyn : forall X U k st t, dynamics P X U k st t = A *m X k + B *m U k.
Hypothesis P_pre : forall X, limit_pre P X = X.
Hypothesis P_post : forall x, limit_post P x = x.
Hypothesis P_jac : forall X U k st t, jacobians P X U k st t = Ok (X, J).
Hypotheses (J_A : jA J = A) (J_H : jH J = H) (J_L : jL J = 1%:M) (J_M : jM J = 1%:M).
Hypotheses (P_Q : q_matrix P = Q) (P_R : r_matrix P = R).

(** One EKF tick on such a plant is one call of the linear filter. *)
Lemma ekf_tick_linear e (f : lkf F n nu ny) u y :
  lA f = A -> lB f = B -> lC f = H -> lQ f = Q -> lR f = R ->
  states e (current_step e) = x_ps f -> covariance e = P_ps f ->
  (current_step e < n_steps e)%N ->
  ekf_tick P e u (measured y) =
    (f' <- lkf_call f u y ;;
     Ok (store e (upd (inputs e) (current_step e) u)
                 (upd (outputs e) (current_step e) (measured y))
                 (states e) (x_ps f') (P_ps f'))).
Proof.
move=> fA fB fC fQ fR Hx HP Hk.
rewrite /ekf_tick /ekf_predict leqNgt Hk P_jac /= /ekf_correct /=.
rewrite has_nan_measured /= /lkf_call fA fB fC fQ fR.
rewrite /step_dyn P_discrete P_dyn P_pre P_post upd_at Hx HP J_A J_H J_L J_M P_Q P_R.
rewrite !mul1mx !trmx1 !mulmx1 to_num_measured.
by case: inv_py.
Qed.

(** Hence the two trajectories agree. *)
Lemma ekf_traj_linear e (f : lkf F n nu ny) us :
  lA f = A -> lB f = B -> lC f = H -> lQ f = Q -> lR f = R ->
  states e (current_step e) = x_ps f -> covariance e = P_ps f ->
  (current_step e + size us <= n_steps e)%N ->
  ekf_traj P e us = lkf_traj f us.
Proof.
elim: us e f => [|[u y] us IH] e f fA fB fC fQ fR Hx HP Hlen //=.
have Hk : (current_step e < n_steps e)%N.
  by apply: leq_trans Hlen; rewrite /= addnS ltnS leq_addr.
rewrite (ekf_tick_linear u y fA fB fC fQ fR Hx HP Hk).
case E: lkf_call => [f'|] //=.
case: (lkf_call_model E) => f'A f'B f'C f'Q f'R.
rewrite (IH _ f') /= ?upd_at //.
- by rewrite f'A.
- by rewrite f'B.
- by rewrite f'C.
- by rewrite f'Q.
- by rewrite f'R.
- by rewrite addSnnS.
Qed.

End LinearPlant.

(** C2: on a discrete block whose dynamics are [A x + B u], whose
    measurement is [H x], whose limitations are the identity and whose
    Jacobians are the constant [A], [H] with [L = M = I], with [Q], [R],
    initial state and covariance matching those of a linear Kalman filter,
    the EKF ticks store, step after step, the same posterior state and
    covariance as the calls of the linear filter on the same inputs and
    (measured) outputs, as long as the time line lasts. *)
Theorem ekf_linear_matches_lkf P (J : jac F n nu ny) (f : lkf F n nu ny) e us :
  time_type P = Discrete ->
  (forall X U k st t, dynamics P X U k st t = lA f *m X k + lB f *m U k) ->
  (forall X U k st t, measurements P X U k st t = lC f *m X k) ->
  (forall X, limit_pre P X = X) ->
  (forall x, limit_post P x = x) ->
  (forall X U k st t, jacobians P X U k st t = Ok (X, J)) ->
  jA J = lA f -> jH J = lC f -> jL J = 1%:M -> jM J = 1%:M ->
  q_matrix P = lQ f -> r_matrix P = lR f ->
  states e (current_step e) = x_ps f -> covariance e = P_ps f ->
  (current_step e + size us <= n_steps e)%N ->
  ekf_traj P e us = lkf_traj f us.
Proof.
move=> Hd Hdyn _ Hpre Hpost Hjac HA HH HL HM HQ HR.
exact: (ekf_traj_linear Hd Hdyn Hpre Hpost Hjac HA HH HL HM HQ HR).
Qed.

(** C6: a call of the linear Kalman filter is the closed-form recursion:
    prediction from the pre-call posterior, gain through the inverse of
    [C P_pr C^T + R] (a singular one raises [LinAlgError]), residual,
    posterior; the model matrices are left as they were. *)
Theorem lkf_call_closed_form (f : lkf F n nu ny) u y :
  let A := lA f in
  let C := lC f in
  let xpr := A *m x_ps f + lB f *m u in
  let Ppr := A *m P_ps f *m A^T + lQ f in
  let S := C *m Ppr *m C^T + lR f in
  lkf_call f u y =
    if S \in unitmx then
      let K := Ppr *m C^T *m invmx S in
      let r := y - C *m xpr in
      Ok {| lA := A; lB := lB f; lC := C; lD := lD f; lQ := lQ f; lR := lR f;
            x_pr := xpr; x_ps := xpr + K *m r; res := r; lK := K;
            P_pr := Ppr; P_ps := (1%:M - K *m C) *m Ppr |}
    else Err LinAlgError.
Proof. by rewrite /lkf_call /inv_py /=; case: (_ \in unitmx). Qed.

(** C5 (as the code has it): [Nonlinear.reset] only sets the step counter
    back to 0; the error covariance and the history buffers keep the
    values the last tick left. *)
Theorem reset_only_rewinds_step (e : engine F n nu ny) :
  current_step (reset e) = 0%N /\ covariance (reset e) = covariance e /\
  states (reset e) = states e /\ inputs (reset e) = inputs e /\
  outputs (reset e) = outputs e /\ time_line (reset e) = time_line e /\
  n_steps (reset e) = n_steps e.
Proof. by []. Qed.

End Ticks.

(** C10: the stored [D] of [LtiGroup] (tuple or list form) and of
    [LinearKalmanFilter] is the zero matrix of shape
    [(rows of C, columns of B)] when the supplied [D] has a zero entry, and
    the supplied [D] otherwise. *)
Theorem D_zeroed_on_any_zero_entry (A B C D : pymat F) :
  ltigroup_D A B C D =
    (if has (fun row => 0 \in row) D then zeros F (nrows C) (ncols B) else D) /\
  lkf_D A B C D =
    (if has (fun row => 0 \in row) D then zeros F (nrows C) (ncols B) else D).
Proof.
have E : (np_all D == false) = has (fun row => 0 \in row) D.
  rewrite /np_all eqbF_neg -has_predC.
  elim: D => [|row D IH] //=; congr (_ || _) => //.
  rewrite -has_predC; elim: row => [|x row IHr] //=.
  by rewrite negbK in_cons eq_sym IHr.
by rewrite /ltigroup_D /lkf_D /normalize_D E.
Qed.

(** C1 (as the code has it): the UKF branch of the constructor reads
    [self.num_states], so it raises [AttributeError] on a block without
    that attribute; otherwise [w_c] is the very array [w_m], every weight
    is [1/(2(n+lambda))] and the centre one, shared by both, gets
    [1 - alpha^2 + beta] added. *)
Theorem ukf_init_weights (c : ukf_cfg F) :
  ukf_init c =
    match cfg_num_states c with
    | None => Err (AttributeError "num_states")
    | Some m =>
        let lam := cfg_alpha c ^+ 2 * (m%:R + cfg_kappa c) - m%:R in
        let w := 1 / (2%:R * (m%:R + lam)) in
        Ok {| n_ukf := m; lambd := lam; betta := 2%:R; wm := 0%N; wc := 0%N;
              ukf_heap := [:: (w + (1 - cfg_alpha c ^+ 2 + 2%:R)) :: nseq (2 * m) w] |}
    end.
Proof.
rewrite /ukf_init; case: (cfg_num_states c) => [m|] //=.
by rewrite /heap_set /heap_get addn1.
Qed.

(** *** [Lorenz._jacobians] *)

Lemma lorenz_jacobians_eval (ge : namespace F) X k :
  assoc ge "B"%string = None ->
  lorenz_jacobians_py ge X k =
    if assoc ge "np"%string is Some _ then Err (NameError "B") else Err (NameError "np").
Proof.
move=> HB; rewrite /lorenz_jacobians_py /= /lookup_name /=.
case: (assoc ge "np"%string) => [v|] //=.
repeat (case: insubP => [? _ _|] //=).
by rewrite HB.
Qed.

(** C9: in a module namespace that binds no [B] (the names [general_blocks]
    defines or imports), [Lorenz._jacobians] raises [NameError] on every
    input ([NameError: B] once [np] is bound), so the first EKF or UKF tick
    of a [Lorenz] estimator raises it too. *)
Theorem lorenz_jacobians_always_name_error (ge : namespace F) :
  assoc ge "B"%string = None ->
  (forall X k, exists s, lorenz_jacobians_py ge X k = Err (NameError s)) /\
  (forall X k, assoc ge "np"%string <> None ->
     lorenz_jacobians_py ge X k = Err (NameError "B")) /\
  (forall (d : ukf_data F) (e : engine F 3 1 2) u y,
     (current_step e < n_steps e)%N ->
     exists s, ekf_tick (lorenz_plant ge) e u y = Err (NameError s) /\
               ukf_tick sqrt cholesky (lorenz_plant ge) d e u y = Err (NameError s)).
Proof.
move=> HB; split; [|split].
- by move=> X k; rewrite lorenz_jacobians_eval //; case: assoc; eexists.
- by move=> X k; rewrite lorenz_jacobians_eval //; case: assoc.
- move=> d e u y Hk.
  rewrite /ekf_tick /ukf_tick /ekf_predict /ukf_predict leqNgt Hk /=.
  rewrite lorenz_jacobians_eval //.
  by case: assoc; eexists.
Qed.

(** *** Scopes *)

Lemma take_rows_iota (M : pymat F) i0 m :
  (i0 + m <= size M)%N ->
  take_rows M [seq Posz i | i <- iota i0 m] = Ok [seq nth [::] M i | i <- iota i0 m].
Proof.
elim: m i0 => [|m IH] i0 Hle //=.
have Hi : (i0 < size M)%N by apply: leq_trans Hle; rewrite addnS ltnS leq_addr.
by rewrite Hi IH //= addSnnS.
Qed.

Lemma take_rows_size (M r : pymat F) l : take_rows M l = Ok r -> size r = size l.
Proof.
elim: l r => [|i l IH] r /=; first by case=> <-.
case: py_index => [j|] //; case E: take_rows => [r'|] //= [<-] /=.
by rewrite (IH _ E).
Qed.

Lemma take_rows_all (a : pred (seq F)) (M r : pymat F) l :
  all a M -> take_rows M l = Ok r -> all a r.
Proof.
move=> HM; elim: l r => [|i l IH] r /=; first by case=> <-.
case Ei: py_index => [j|] //; case E: take_rows => [r'|] //= [<-] /=.
rewrite (IH _ E) andbT; apply: (allP HM); apply: mem_nth.
move: Ei; rewrite /py_index; case: i => k; case: ifP => // Hk [<-] //.
by rewrite ltn_subrL /= (leq_ltn_trans (leq0n _) Hk).
Qed.

(** A [Scope] built from rows that all have one entry per instant of the
    time line keeps them as its signals. *)
Lemma scope_new_rows (tl : seq F) (M : pymat F) :
  (0 < size tl)%N -> all (fun row => size row == size tl) M ->
  scope_new tl (size M) M (size tl) =
    Ok {| sc_time_line := tl; sc_n_signals := size M; sc_signals := M;
          sc_cols := size tl |}.
Proof.
move=> Hpos Hrows; rewrite /scope_new.
case: (ltngtP (size tl) 1) => [|Hgt|H1].
- by rewrite ltnS leqn0 => /eqP H0; rewrite H0 in Hpos.
- have -> : (size M + size tl == size M)%N = false.
    by rewrite -{2}[size M]addn0 eqn_add2l; case: (size tl) Hgt.
  have -> : (size M + size tl == (size M).+1)%N = false.
    by rewrite -addn1 eqn_add2l; case: (size tl) Hgt => [|[|]].
  rewrite /= !eqxx /=.
  case: ifP => // H; move: H Hgt; case: M {Hrows} => [|row M'] //= H.
  by case: (size tl) H => [|[|t]] //=; rewrite !addnS.
- rewrite H1 addn1 eqxx orbT.
  have Hv : flatten M = [seq head 0 row | row <- M].
    elim: M Hrows => [|row M IH] //= /andP [Hr /IH ->].
    by move: Hr; rewrite H1; case: row => [|x [|]].
  have -> : size (flatten M) == size M by rewrite Hv size_map.
  congr (Ok _); congr Build_scope; rewrite Hv -map_comp.
  elim: M Hrows {Hv} => [|row M IH] //= /andP [Hr /IH ->].
  by move: Hr; rewrite H1; case: row => [|x [|]] //= _; rewrite mulr1.
Qed.

(** C8 (as the code has it): for a 1-D index list [select] valid in both
    signal matrices, [scope_1.append(scope_2, select)] holds
    [scope_1.signals[select]] followed by [scope_2.signals[select]]; it is
    selecting the positions [0 .. len(select) - 1] of the result, not
    [select] again, that gives back [scope_1.signals[select]].  (Both
    scopes are well formed on a nonempty time line.) *)
Theorem scope_append_select_positions (s1 s2 : scope F) l r1 r2 :
  let tl := sc_time_line s1 in
  (0 < size tl)%N ->
  sc_cols s1 = size tl -> sc_cols s2 = size tl ->
  all (fun row => size row == size tl) (sc_signals s1) ->
  all (fun row => size row == size tl) (sc_signals s2) ->
  take_rows (sc_signals s1) l = Ok r1 ->
  take_rows (sc_signals s2) l = Ok r2 ->
  let o := {| sc_time_line := tl; sc_n_signals := (2 * size l)%N;
              sc_signals := r1 ++ r2; sc_cols := size tl |} in
  scope_append s1 s2 (Some l) = Ok o /\
  scope_select o [seq Posz i | i <- iota 0 (size l)] =
    Ok {| sc_time_line := tl; sc_n_signals := size l; sc_signals := r1;
          sc_cols := size tl |}.
Proof.
move=> tl Hpos H1 H2 Hr1 Hr2 E1 E2 o.
have S1 := take_rows_size E1; have S2 := take_rows_size E2.
have A1 := take_rows_all Hr1 E1; have A2 := take_rows_all Hr2 E2.
have Hsz : (2 * size l)%N = size (r1 ++ r2) by rewrite size_cat S1 S2 addnn mul2n.
split.
  rewrite /scope_append E1 E2 /= H1 H2 eqxx /= Hsz scope_new_rows //.
    by rewrite all_cat A1 A2.
  by rewrite /o Hsz.
have L : (0 + size l <= size (r1 ++ r2))%N by rewrite add0n size_cat S1 leq_addr.
rewrite /scope_select /= (take_rows_iota L) /= map_nth_iota0 //.
by rewrite size_map size_iota -S1 take_size_cat // scope_new_rows.
Qed.

End Proofs.

(** * Further properties of the engine and of [Scope] *)

Section Extra.

Variable F : fieldType.

Section Sim.
Variables n nu ny : nat.

(** [Nonlinear.__call__] as a simulator: while steps remain, each call succeeds
    and advances [current_step] by one; it writes only the input and output
    of the current step and the state of the next one, so the states up to the
    starting step and the inputs and outputs before it are left as they were;
    once [current_step] reaches [n_steps], a further call raises [IndexError]. *)
Theorem sim_run_keeps_past_states (P : plant F n nu ny) e cs :
  (current_step e + size cs <= n_steps e)%N ->
  exists e', sim_run P e cs = Ok e' /\
    n_steps e' = n_steps e /\
    current_step e' = (current_step e + size cs)%N /\
    (forall j, (j <= current_step e)%N -> states e' j = states e j) /\
    (forall j, (j < current_step e)%N -> inputs e' j = inputs e j /\ outputs e' j = outputs e j) /\
    (current_step e' = n_steps e -> forall u xn yn, sim_call P false e' u xn yn = Err IndexError).
Proof.
elim: cs e => [|[[u xn] yn] cs IH] e /= Hle.
  exists e; rewrite addn0; do !split => //.
  by move=> Heq u xn yn; rewrite /sim_call Heq leqnn.
have Hk : (current_step e < n_steps e)%N.
  by apply: leq_trans Hle; rewrite addnS ltnS leq_addr.
rewrite /sim_call /= leqNgt Hk /=.
set e1 := Build_engine _ _ _ _ _ _ _ _ _.
have [e' [-> [N' [C' [S' [IO' L']]]]]] : exists e', sim_run P e1 cs = Ok e' /\
    n_steps e' = n_steps e1 /\
    current_step e' = (current_step e1 + size cs)%N /\
    (forall j, (j <= current_step e1)%N -> states e' j = states e1 j) /\
    (forall j, (j < current_step e1)%N -> inputs e' j = inputs e1 j /\ outputs e' j = outputs e1 j) /\
    (current_step e' = n_steps e1 -> forall u xn yn, sim_call P false e' u xn yn = Err IndexError).
  by apply: IH; rewrite /= addSnnS.
exists e'; split=> //; split=> //; split; first by rewrite C' /= addSnnS.
split.
  move=> j Hj; rewrite (S' j (leq_trans Hj (leqnSn _))) /=.
  by rewrite /upd ifN // neq_ltn ltnS Hj.
split; last by [].
move=> j Hj; have [I O] := IO' j (leq_trans Hj (leqnSn _)).
by rewrite I O /= /upd !ifN // neq_ltn Hj.
Qed.
End Sim.

Section Sim.
Variables n nu ny : nat.

(** A simulator built on the discrete block [linear_plant A B H Q R] and an
    [LtiGroup] of one system with matrices [A], [B], [C = H], [D = 0], no delay
    and [newest = 0], started from the same state and fed with the same inputs
    and noises, produce the same states and the same outputs. *)
Theorem simulator_linear_matches_lti (A : 'M[F]_n) (B : 'M[F]_(n, nu)) (H : 'M[F]_(ny, n))
    (Q : 'M[F]_n) (R : 'M[F]_ny) (e : engine F n nu ny) (g : lti F n nu ny 1) cs :
  lt_A g = A -> lt_B g = B -> lt_C g = H -> lt_D g = 0 ->
  size (lt_inputs g) = 1%N -> lt_newest g = false -> lt_auto_noise g = false ->
  lt_states g = states e (current_step e) ->
  (current_step e + size cs <= n_steps e)%N ->
  exists tr, lti_traj g (sim_args cs) = Ok tr /\
    sim_traj (linear_plant A B H Q R) e cs = Ok [seq (p.1, measured p.2) | p <- tr].
Proof.
move=> HA HB HC HD Hsz Hnew Hauto Hs.
elim: cs e g HA HB HC HD Hsz Hnew Hauto Hs => [|[[u xn] yn] cs IH] e g HA HB HC HD Hsz Hnew Hauto Hs Hle.
  by exists [::].
have Hk : (current_step e < n_steps e)%N.
  by apply: leq_trans Hle; rewrite addnS ltnS leq_addr.
rewrite /= /lti_call; case: (lt_inputs g) Hsz => [|b [|b' bs]] // _ /=.
rewrite /sim_call /= leqNgt Hk /= Hauto Hnew HA HB HC HD /=.
set g1 := Build_lti _ _ _ _ _ _ _ _ _ _ _ _ _.
set e1 := Build_engine _ _ _ _ _ _ _ _ _.
have [tr [E1 E2]] : exists tr, lti_traj g1 (sim_args cs) = Ok tr /\
    sim_traj (linear_plant A B H Q R) e1 cs = Ok [seq (p.1, measured p.2) | p <- tr].
  apply: IH => //=; last by rewrite addSnnS.
  by rewrite /upd eqxx Hs /step_dyn /= /upd eqxx.
rewrite E1 E2 /=; exists ((lt_states g1, lt_outputs g1) :: tr); split=> //=.
congr (Ok (_ :: _)); congr pair.
  by rewrite /upd eqxx /step_dyn /= /upd eqxx Hs.
by rewrite /upd eqxx Hs mul0mx addr0.
Qed.
End Sim.

Section Group.
Variables n ni no nl : nat.

Lemma lti_traj_buffer cs : forall (g g' : lti F n ni no nl) b bs b',
  lt_inputs g = b :: bs -> g' = with_inputs g [:: b'] ->
  lti_traj g cs = lti_traj g' (delayed_args bs cs).
Proof.
elim: cs => [|a cs IH] g g' b bs b' Hg ->.
  by rewrite /delayed_args; case: (bs ++ _).
rewrite /= /lti_call Hg /=.
have Hh : head 0 (rcons bs (a_u a)) = head 0 (bs ++ a_u a :: map (@a_u _ _ _ _ _) cs).
  by case: bs {Hg}.
have Hd : delayed_args bs (a :: cs) =
    with_u a (head 0 (bs ++ a_u a :: map (@a_u _ _ _ _ _) cs))
      :: delayed_args (behead (rcons bs (a_u a))) cs.
  by rewrite /delayed_args; case: bs {Hg Hh} => //= c bs; rewrite cat_rcons.
have Hr : rcons bs (a_u a) = head 0 (rcons bs (a_u a)) :: behead (rcons bs (a_u a)).
  by case: bs {Hg Hh Hd}.
rewrite Hd /= -Hh.
by erewrite IH; [reflexivity | exact Hr | ].
Qed.

(** An [LtiGroup] whose delay line holds [d + 1] zeros behaves as the group
    without delay fed with [d] zeros before its inputs. *)
Theorem lti_delay_prepends_zeros (g : lti F n ni no nl) d cs :
  lti_traj (with_inputs g (nseq d.+1 0)) cs =
    lti_traj (with_inputs g [:: 0]) (delayed_args (nseq d 0) cs).
Proof. exact: lti_traj_buffer. Qed.
End Group.

Section Group.
Variables n ni no nl : nat.

(** With [auto_inject_noise] on and a nonzero [Q], [LtiGroup.__call__] adds to
    the states the draw [Q_ch @ randn(n_states, 1)]: one column, broadcast, so
    every system of the group receives the same state noise, whatever
    [x_noise] was passed. *)
Theorem lti_auto_noise_shared (g g' : lti F n ni no nl) a :
  lt_auto_noise g = true -> lt_Q g != 0 -> lti_call g a = Ok g' ->
  let w := lt_states g' - (lt_A g *m lt_states g + lt_B g *m head 0 (lt_inputs g')) in
  w = bcast_cols nl (lt_Q_ch g *m a_rx a) /\ forall i j j', w i j = w i j'.
Proof.
move=> Ha HQ; rewrite /lti_call; case: (lt_inputs g) => [|b bs] //= [<-] /=.
rewrite Ha HQ /= addrC addKr; split=> // i j j'.
by rewrite !mxE.
Qed.
End Group.

Lemma nonlinear_estimator_key (T : Type) (kw : seq (string * T)) v :
  List.In ("estimator"%string, v) kw -> nonlinear_estimator kw = true.
Proof.
rewrite /nonlinear_estimator.
have Ht : forall l, foldl (fun est (kv : string * T) => if String.eqb kv.1 "estimator" then true else est) true l = true.
  by elim=> [|kv l IH] //=; case: String.eqb.
suff H : forall b0, List.In ("estimator"%string, v) kw ->
    foldl (fun est (kv : string * T) => if String.eqb kv.1 "estimator" then true else est) b0 kw = true.
  exact: H.
elim: kw => [|kv kw IH] b0 //= [->|Hin].
  by rewrite String.eqb_refl Ht.
exact: IH.
Qed.

(** [Nonlinear.__init__] sets [estimator] as soon as the keyword is present,
    whatever its value: with [estimator=False] among the keywords, [__call__]
    returns at once and leaves the object unchanged. *)
Theorem estimator_keyword_false_still_estimator n nu ny (P : plant F n nu ny) e u xn yn
    (kw : seq (string * bool)) :
  List.In ("estimator"%string, false) kw ->
  sim_call P (nonlinear_estimator kw) e u xn yn = Ok e.
Proof. by move=> H; rewrite (nonlinear_estimator_key H). Qed.

Lemma rot_add_lt (T : Type) (s : seq T) p q :
  (p < size s)%N -> (q < size s)%N -> rot p (rot q s) = rot ((p + q) %% size s) s.
Proof.
move=> Hp Hq; rewrite (rot_add_mod (ltnW Hq) (ltnW Hp)).
case: ifP => H.
  case: (ltngtP (p + q) (size s)) H => [Hlt _|//|->].
    by rewrite modn_small.
  by rewrite modnn rot_size rot0.
have Hgt : (size s < p + q)%N by rewrite ltnNge H.
have Hlt : (p + q - size s < size s)%N.
  rewrite (ltn_subLR _ (ltnW Hgt)).
  by apply: leq_trans (leq_add Hp (ltnW Hq)); rewrite addSn.
by rewrite -{2}(subnK (ltnW Hgt)) modnDr modn_small.
Qed.

Lemma rotr_as_rot (T : Type) (s : seq T) p :
  (p < size s)%N -> rotr p s = rot ((size s - p) %% size s) s.
Proof.
move=> Hp; rewrite /rotr; case: p Hp => [|p] Hp.
  by rewrite subn0 modnn rot_size rot0.
by rewrite modn_small // ltn_subrL /= (leq_ltn_trans (leq0n _) Hp).
Qed.


Lemma py_modE (a : int) N : (0 < N)%N -> (py_mod a N)%:Z = (a %% N)%Z.
Proof. by move=> HN; rewrite /py_mod gez0_abs // modz_ge0 // eqz_nat -lt0n. Qed.

Lemma py_mod_lt (a : int) N : (0 < N)%N -> (py_mod a N < N)%N.
Proof. by move=> HN; rewrite -ltz_nat py_modE // ltz_pmod. Qed.

Lemma rotr_py_mod (T : Type) (r : seq T) (a b : int) :
  (0 < size r)%N ->
  rotr (py_mod b (size r)) (rotr (py_mod a (size r)) r) = rotr (py_mod (a + b) (size r)) r.
Proof.
move=> HN.
have Ha := py_mod_lt a HN; have Hb := py_mod_lt b HN; have Hab := py_mod_lt (a + b) HN.
have Hb' : (py_mod b (size r) < size (rotr (py_mod a (size r)) r))%N by rewrite size_rotr.
rewrite (rotr_as_rot Hb') (rotr_as_rot Ha) (rotr_as_rot Hab) size_rot.
have Hx : ((size r - py_mod b (size r)) %% size r < size r)%N by rewrite ltn_pmod.
have Hy : ((size r - py_mod a (size r)) %% size r < size r)%N by rewrite ltn_pmod.
rewrite (rot_add_lt Hx Hy).
congr rot; apply/eqP; rewrite -eqz_nat -!modz_nat PoszD -!modz_nat.
rewrite -(subzn (ltnW Ha)) -(subzn (ltnW Hb)) -(subzn (ltnW Hab)) !py_modE //.
set d := Posz (size r).
rewrite modzDm addrACA -addrA !modzDl.
have L : ((- (b %% d)%Z - (a %% d)%Z) %% d)%Z = ((- b - a) %% d)%Z.
  by rewrite -modzDm !modzNm modzDm.
by rewrite L modzNm opprD addrC.
Qed.


Lemma scope_roll_rows (tl : seq F) (M : pymat F) a :
  (0 < size tl)%N -> all (fun row => size row == size tl) M ->
  scope_roll {| sc_time_line := tl; sc_n_signals := size M; sc_signals := M; sc_cols := size tl |} a =
  Ok {| sc_time_line := tl; sc_n_signals := size M;
        sc_signals := [seq rotr (py_mod a (size tl)) row | row <- M]; sc_cols := size tl |}.
Proof.
move=> Hpos HM; rewrite /scope_roll /=.
have HM' : all (fun row => size row == size tl) [seq rotr (py_mod a (size tl)) row | row <- M].
  by rewrite all_map; apply: sub_all HM => row /=; rewrite size_rotr.
by have := scope_new_rows Hpos HM'; rewrite size_map.
Qed.

(** [Scope.roll] on a well-formed scope: rolling by [a] then by [b] is rolling
    by [a + b], and rolling back by [-a] restores the scope. *)
Theorem scope_roll_compose (s : scope F) (a b : int) :
  let tl := sc_time_line s in
  (0 < size tl)%N -> sc_cols s = size tl -> sc_n_signals s = size (sc_signals s) ->
  all (fun row => size row == size tl) (sc_signals s) ->
  (s' <- scope_roll s a ;; scope_roll s' b) = scope_roll s (a + b) /\
  (s' <- scope_roll s a ;; scope_roll s' (- a)) = Ok s.
Proof.
case: s => tl ns M c /= Hpos -> -> HM.
have HM' : all (fun row => size row == size tl) [seq rotr (py_mod a (size tl)) row | row <- M].
  by rewrite all_map; apply: sub_all HM => row /=; rewrite size_rotr.
have Hrot : forall b', [seq rotr (py_mod b' (size tl)) row | row <- [seq rotr (py_mod a (size tl)) row | row <- M]]
    = [seq rotr (py_mod (a + b') (size tl)) row | row <- M].
  move=> b'; rewrite -map_comp; apply/eq_in_map => row /(allP HM) /eqP Hr /=.
  by rewrite -Hr rotr_py_mod // Hr.
have R2 : forall b', scope_roll {| sc_time_line := tl; sc_n_signals := size M;
      sc_signals := [seq rotr (py_mod a (size tl)) row | row <- M]; sc_cols := size tl |} b' =
    Ok {| sc_time_line := tl; sc_n_signals := size M;
          sc_signals := [seq rotr (py_mod (a + b') (size tl)) row | row <- M]; sc_cols := size tl |}.
  by move=> b'; have := scope_roll_rows b' Hpos HM'; rewrite size_map Hrot.
rewrite scope_roll_rows //= !R2 scope_roll_rows //; split=> //.
rewrite subrr.
have -> : py_mod 0 (size tl) = 0%N by rewrite /py_mod mod0z.
by rewrite map_id_in // => row _; rewrite /rotr subn0 rot_size.
Qed.


Lemma py_index_lt N i j : py_index N i = Some j -> (j < N)%N.
Proof.
case: i => k /=; case: ifP => // Hk [<-] //.
by rewrite ltn_subrL /= (leq_ltn_trans (leq0n _) Hk).
Qed.

Lemma size_filter_notin N (idx : seq nat) :
  uniq idx -> all (fun j => j < N)%N idx ->
  size (filter (fun i => i \notin idx) (iota 0 N)) = (N - size idx)%N.
Proof.
move=> Hu Ha.
have Hc := count_predC (mem idx) (iota 0 N).
have Hp : perm_eq (filter (fun i => i \in idx) (iota 0 N)) idx.
  apply: uniq_perm; rewrite ?filter_uniq ?iota_uniq // => i.
  rewrite mem_filter mem_iota add0n /=.
  by case Hi: (i \in idx) => //=; rewrite (allP Ha).
have Hm : count (mem idx) (iota 0 N) = size idx by rewrite -size_filter (perm_size Hp).
by rewrite size_filter -[in RHS](size_iota 0 N) -Hc Hm addKn.
Qed.

(** [Scope.remove] with in-range, pairwise distinct row indices (negative ones
    counted from the end) keeps the other rows in their order and lowers
    [n_signals] by the number of rows removed. *)
Theorem scope_remove_keeps_others (s : scope F) rows :
  let tl := sc_time_line s in
  let M := sc_signals s in
  let idx := pmap (py_index (size M)) rows in
  (0 < size tl)%N -> sc_cols s = size tl -> sc_n_signals s = size M ->
  all (fun row => size row == size tl) M ->
  all (fun i => py_index (size M) i != None) rows -> uniq idx ->
  scope_remove s rows =
    Ok {| sc_time_line := tl; sc_n_signals := (size M - size rows)%N;
          sc_signals := [seq nth [::] M i | i <- iota 0 (size M) & i \notin idx];
          sc_cols := size tl |}.
Proof.
case: s => tl ns M c /= Hpos -> -> HM Hall Hu.
have Hlt : all (fun j => j < size M)%N (pmap (py_index (size M)) rows).
  by apply/allP => j; rewrite mem_pmap => /mapP [i _ /esym /py_index_lt].
have Hsz : size (pmap (py_index (size M)) rows) = size rows.
  rewrite size_pmap; apply/eqP; rewrite -all_count.
  by apply: sub_all Hall => i; case: py_index.
have Hle : (size rows <= size M)%N.
  have Hsub : {subset pmap (py_index (size M)) rows <= iota 0 (size M)}.
    by move=> j Hj; rewrite mem_iota add0n (allP Hlt).
  by have := uniq_leq_size Hu Hsub; rewrite size_iota Hsz.
rewrite /scope_remove /delete_rows /=.
have -> : has (fun i => py_index (size M) i == None) rows = false.
  by apply/negbTE; rewrite -all_predC.
rewrite /= ltnNge Hle /=.
set K := [seq nth [::] M i | i <- iota 0 (size M) & i \notin pmap (py_index (size M)) rows].
have HK : size K = (size M - size rows)%N by rewrite size_map size_filter_notin // Hsz.
have AK : all (fun row => size row == size tl) K.
  apply/allP => row /mapP [i]; rewrite mem_filter mem_iota add0n => /andP [_ Hi] ->.
  by apply: (allP HM); rewrite mem_nth.
by have := scope_new_rows Hpos AK; rewrite HK.
Qed.


Lemma set_col_size (M : pymat F) k v : size (set_col M k v) = size M.
Proof. by rewrite size_map size_iota. Qed.

Lemma set_col_nth (M : pymat F) k v i j : (i < size M)%N ->
  nth 0 (nth [::] (set_col M k v) i) j =
    if j == k then nth 0 v i else nth 0 (nth [::] M i) j.
Proof.
move=> Hi; rewrite /set_col (nth_map 0%N) ?size_iota // nth_iota // add0n.
by rewrite nth_set_nth.
Qed.

Lemma set_col_rows (M : pymat F) k v c : (k < c)%N ->
  all (fun row => size row == c) M -> all (fun row => size row == c) (set_col M k v).
Proof.
move=> Hk HM; apply/allP => row /mapP [i]; rewrite mem_iota add0n => /andP [_ Hi] ->.
rewrite size_set_nth; have /eqP -> := allP HM _ (mem_nth [::] Hi).
by apply/eqP/maxn_idPr.
Qed.

Lemma np_add_same (a b : seq F) : size a = size b ->
  np_add a b = Ok [seq x.1 + x.2 | x <- zip a b].
Proof. by move=> H; rewrite /np_add H eqxx. Qed.

Lemma scope_gets_fill (o : scope_obj F) ds :
  let s := so_scope o in
  let M := sc_signals s in
  let k := so_step o in
  (k + size ds <= sc_cols s)%N ->
  all (fun row => size row == sc_cols s) M ->
  all (fun d => (size d.1 == size M) && (size d.2 == size M)) ds ->
  exists o', scope_gets o ds = Ok o' /\
    so_step o' = (k + size ds)%N /\
    sc_cols (so_scope o') = sc_cols s /\
    size (sc_signals (so_scope o')) = size M /\
    all (fun row => size row == sc_cols s) (sc_signals (so_scope o')) /\
    forall i j, (i < size M)%N ->
      nth 0 (nth [::] (sc_signals (so_scope o')) i) j =
        if (k <= j < k + size ds)%N
        then nth 0 (nth ([::], [::]) ds (j - k)).1 i + nth 0 (nth ([::], [::]) ds (j - k)).2 i
        else nth 0 (nth [::] M i) j.
Proof.
elim: ds o => [|[d z] ds IH] o /= Hle HM Hds.
  exists o; do !split => //; first by rewrite addn0.
  move=> i j Hi; rewrite addn0.
  by case: (leqP (so_step o) j) => //= H; rewrite ltnNge H.
move: Hds => /andP [/andP [/eqP Hd /eqP Hz] Hds].
have Hk : (so_step o < sc_cols (so_scope o))%N.
  by apply: leq_trans Hle; rewrite addnS ltnS leq_addr.
rewrite /scope_get np_add_same ?Hd ?Hz //= leqNgt Hk /= size_map size1_zip ?Hd ?Hz ?eqxx //=.
set v := [seq x.1 + x.2 | x <- zip d z].
set o1 := Build_scope_obj _ _.
have Hle1 : (so_step o1 + size ds <= sc_cols (so_scope o1))%N by rewrite /= addSnnS.
have HM1 : all (fun row => size row == sc_cols (so_scope o1)) (sc_signals (so_scope o1)).
  exact: set_col_rows.
have Hds1 : all (fun d => (size d.1 == size (sc_signals (so_scope o1)))
    && (size d.2 == size (sc_signals (so_scope o1)))) ds by rewrite /= set_col_size.
have [o' [E [S [C [Sz [A H]]]]]] := IH o1 Hle1 HM1 Hds1.
exists o'; rewrite E; do !split => //.
- by rewrite S /= addSnnS.
- by rewrite Sz /= set_col_size.
- move=> i j Hi; rewrite H /= ?set_col_size // set_col_nth //.
  have Hv : nth 0 v i = nth 0 d i + nth 0 z i.
    by rewrite /v (nth_map (0, 0)) ?size1_zip ?Hd ?Hz // nth_zip ?Hd ?Hz.
  case: (ltngtP j (so_step o)) => [Hlt|Hgt|->].
  + by [].
  + by rewrite /= addSnnS -(subnSK Hgt).
  + by rewrite /= subnn addnS ltnS leq_addr Hv.
Qed.
(** Calling [Scope.get(data, noise)] once per column, from step [0], fills
    column [j] with the [j]-th [data + noise]; a further call raises
    [IndexError]. *)
Theorem scope_get_fills_then_index_error (o : scope_obj F) ds :
  let M := sc_signals (so_scope o) in
  let N := sc_cols (so_scope o) in
  so_step o = 0%N -> size ds = N ->
  all (fun row => size row == N) M ->
  all (fun d => (size d.1 == size M) && (size d.2 == size M)) ds ->
  exists o', scope_gets o ds = Ok o' /\ so_step o' = N /\
    (forall i j, (i < size M)%N -> (j < N)%N ->
       nth 0 (nth [::] (sc_signals (so_scope o')) i) j =
         nth 0 (nth ([::], [::]) ds j).1 i + nth 0 (nth ([::], [::]) ds j).2 i) /\
    (forall d z, size d = size M -> size z = size M -> scope_get o' d z = Err IndexError).
Proof.
move=> M N H0 Hn HM Hds.
have Hle : (so_step o + size ds <= sc_cols (so_scope o))%N by rewrite H0 Hn.
have [o' [E [S [C [Sz [_ H]]]]]] := scope_gets_fill Hle HM Hds.
exists o'; split=> //; split; first by rewrite S H0 Hn.
split.
  by move=> i j Hi Hj; rewrite H // H0 /= Hn Hj subn0.
move=> d z Hd Hz; have Hdz : size d = size z by rewrite Hd Hz.
rewrite /scope_get (np_add_same Hdz).
by rewrite /= S C H0 Hn leqnn.
Qed.


Lemma sym_congr m k (A : 'M[F]_(m, k)) (P : 'M[F]_k) : P^T = P -> (A *m P *m A^T)^T = A *m P *m A^T.
Proof. by move=> HP; rewrite !trmx_mul trmxK HP mulmxA. Qed.

Lemma sym_inv m (S : 'M[F]_m) : S^T = S -> (invmx S)^T = invmx S.
Proof. by move=> HS; rewrite trmx_inv HS. Qed.

(** [(1 - P G^T S^-1 G) P] for symmetric [P] and [S]. *)
Lemma sym_gain_update m k (P : 'M[F]_m) (G : 'M[F]_(k, m)) (S : 'M[F]_k) :
  P^T = P -> S^T = S ->
  ((1%:M - P *m G^T *m invmx S *m G) *m P)^T = (1%:M - P *m G^T *m invmx S *m G) *m P.
Proof.
move=> HP HS; rewrite mulmxBl mul1mx linearB /= HP; congr (_ - _).
by rewrite !trmx_mul trmxK HP sym_inv // !mulmxA.
Qed.

Section Filters.
Variables n nu ny : nat.

(** [LinearKalmanFilter.__call__] keeps the covariances symmetric when [P_ps],
    [Q] and [R] are. *)
Theorem lkf_call_keeps_covariance_symmetric (f f' : lkf F n nu ny) u y :
  (P_ps f)^T = P_ps f -> (lQ f)^T = lQ f -> (lR f)^T = lR f ->
  lkf_call f u y = Ok f' -> (P_pr f')^T = P_pr f' /\ (P_ps f')^T = P_ps f'.
Proof.
move=> HP HQ HR; rewrite /lkf_call /inv_py; case: ifP => // _ [<-] /=.
have Hpr : (lA f *m P_ps f *m (lA f)^T + lQ f)^T = lA f *m P_ps f *m (lA f)^T + lQ f.
  by rewrite linearD /= sym_congr // HQ.
split=> //; apply: sym_gain_update => //.
by rewrite linearD /= sym_congr // HR.
Qed.

(** An EKF step ([__nextstepEKF]) that succeeds keeps the covariance symmetric
    when it was, and [q_matrix] and [r_matrix] are. *)
Theorem ekf_tick_keeps_covariance_symmetric (P : plant F n nu ny) e u y e' :
  (covariance e)^T = covariance e -> (q_matrix P)^T = q_matrix P -> (r_matrix P)^T = r_matrix P ->
  ekf_tick P e u y = Ok e' -> (covariance e')^T = covariance e'.
Proof.
move=> HP HQ HR; rewrite /ekf_tick /ekf_predict.
case: leqP => // _; case: jacobians => [[X J]|] //=.
set Pp := _ + _.
have HPp : Pp^T = Pp by rewrite /Pp linearD /= !sym_congr.
rewrite /ekf_correct /=; case: ifP => _ /=; last by case=> <-.
rewrite /inv_py; case: ifP => // _ /= [<-] /=.
apply: sym_gain_update => //.
by rewrite linearD /= !sym_congr.
Qed.
Lemma wcov_sym m (wc : seq F) (dP : seq 'cV[F]_m) : (wcov wc dP dP)^T = wcov wc dP dP.
Proof.
rewrite /wcov linear_sum; apply: eq_bigr => i _.
by rewrite linearZ /= trmx_mul trmxK.
Qed.

(** A UKF step ([__nextstepUKF]) that succeeds leaves a symmetric covariance
    when [q_matrix] and [r_matrix] are symmetric, whatever the covariance was
    before: the new one is built from weighted outer products. *)
Theorem ukf_tick_covariance_symmetric (P : plant F n nu ny) sqrt cholesky (d : ukf_data F) e u y e' :
  (q_matrix P)^T = q_matrix P -> (r_matrix P)^T = r_matrix P ->
  ukf_tick sqrt cholesky P d e u y = Ok e' -> (covariance e')^T = covariance e'.
Proof.
move=> HQ HR; rewrite /ukf_tick /ukf_predict.
case: ifP => // _; case: jacobians => [[X J]|] //=.
case: cholesky => [C|] //=.
case: ifP => // _; case: ifP => // _.
case: ukf_propagate => [[X1 xp] Xs] /=.
set Pp := _ + _.
have HPp : Pp^T = Pp by rewrite /Pp linearD /= wcov_sym sym_congr.
rewrite /ukf_correct /=; case: ifP => _ /=; last by case=> <-.
case: ukf_measure => [[X2 zb] Zs] /=.
set St := _ + _.
have HSt : St^T = St by rewrite /St linearD /= wcov_sym sym_congr.
rewrite /inv_py; case: ifP => // _ /= [<-] /=.
by rewrite linearB /= HPp trmx_mul trmxK trmx_mul sym_inv // mulmxA.
Qed.
End Filters.

(** [obj += i] with the [__iadd__] of [Nonlinear] or [Scope]: the step of the
    object grows by [i], but the method returns [None], so the name is rebound
    to [None] and a second [obj += j] raises [TypeError]. *)
Theorem iadd_rebinds_to_none env steps x l i j :
  env_get env x = Some (PyObj l) ->
  exists env' steps', aug_add env steps x i = Ok (env', steps') /\
    steps' l = (steps l + i)%N /\
    env_get env' x = Some PyNone /\
    (forall y, y <> x -> env_get env' y = env_get env y) /\
    aug_add env' steps' x j = Err TypeError.
Proof.
move=> Hx; rewrite /aug_add Hx.
exists ((x, PyNone) :: env), (upd steps l (steps l + i)%N); split=> //.
split; first by rewrite /upd eqxx.
have Hget : env_get ((x, PyNone) :: env) x = Some PyNone by rewrite /= String.eqb_refl.
split=> //; split; last by rewrite Hget.
by move=> y Hy /=; case: String.eqb_spec.
Qed.


(** [Scope(initial=[[c]], n_signals=ns)]: for [ns <= 2] every signal starts
    at [c] over the whole time line; for [ns > 2] the initial value is ignored
    and the signals are zero. *)
Theorem scope_scalar_initial (tl : seq F) ns c :
  scope_new tl ns [:: [:: c]] 1 =
    if (ns <= 2)%N
    then Ok {| sc_time_line := tl; sc_n_signals := ns;
               sc_signals := nseq ns (nseq (size tl) c); sc_cols := size tl |}
    else Ok {| sc_time_line := tl; sc_n_signals := ns;
               sc_signals := zeros F ns (size tl); sc_cols := size tl |}.
Proof. by case: ns => [|[|[|ns]]]; rewrite /scope_new /= ?mulr1. Qed.

(** The UKF sigma points come in pairs [xm + d_i] and [xm - d_i]: the points
    [i] and [i + n] add up to [2 xm]. *)
Theorem sigma_points_symmetric n (xm : 'cV[F]_n) dS i :
  (0 < i <= n)%N -> sigma_point xm dS i + sigma_point xm dS (i + n) = 2%:R *: xm.
Proof.
case/andP=> Hi Hn; rewrite /sigma_point.
have -> : (i == 0%N) = false by case: i Hi {Hn}.
have -> : (i + n == 0%N) = false by case: i Hi {Hn}.
have -> : (i + n <= n)%N = false by rewrite -{2}[n]add0n leq_add2r leqNgt Hi.
rewrite Hn.
have -> : ((i + n).-1 - n)%N = i.-1 by case: i Hi {Hn} => // i' _; rewrite addSn /= addnK.
by rewrite addrACA subrr addr0 scaler_nat mulr2n.
Qed.

(** [sample_time] of [Nonlinear] is the mean of [tl[1:-1] - tl[0:-2]]: the
    mean of the intervals of the time line without the last one. *)
Theorem sample_time_skips_last_interval (tl : seq F) :
  (3 <= size tl)%N ->
  mean_step tl = (nth 0 tl (size tl - 2) - nth 0 tl 0) / (size tl - 2)%:R.
Proof.
move=> _; rewrite /mean_step.
have -> : iota 0 (size tl - 2) = index_iota 0 (size tl - 2) by rewrite /index_iota subn0.
by rewrite (telescope_sumr (fun i => nth 0 tl i)).
Qed.

End Extra.

(** * Concrete runs *)

Section Concrete.

Lemma has_nan_y_nan : has_nan Ex.y_nan.
Proof. by apply/existsP; exists 0; rewrite mxE. Qed.

(** One EKF tick of [plant1] from [engine0] without a measurement. *)
Definition ekf_nan_tick : engine rat 1 1 1 :=
  store Ex.engine0 (upd (inputs Ex.engine0) 0 Ex.u0)
    (upd (outputs Ex.engine0) 0 Ex.y_nan) (states Ex.engine0)
    (1%:M *m states Ex.engine0 0 + 0 *m Ex.u0)
    (1%:M *m 1%:M *m (1%:M)^T + 1%:M *m 1%:M *m (1%:M)^T).

Lemma ekf_nan_tick_eq :
  ekf_tick Ex.plant1 Ex.engine0 Ex.u0 Ex.y_nan = Ok ekf_nan_tick.
Proof. rewrite ekf_tick_nan ?has_nan_y_nan //; reflexivity. Qed.

Lemma ekf_nan_tick_covariance : covariance ekf_nan_tick = 2%:R%:M.
Proof. by rewrite /= !mul1mx !trmx1 -(raddfD (@scalar_mx rat 1)). Qed.

(** The UKF data [cfg1] leads to: [lambda = 0], weights [5/2, 1/2, 1/2]. *)
Definition ukf1 : ukf_data rat :=
  {| n_ukf := 1; lambd := 0; betta := 2%:R; wm := 0%N; wc := 0%N;
     ukf_heap := [:: [:: 5%:R / 2%:R; 1 / 2%:R; 1 / 2%:R]] |}.

Lemma missing_measurement_prediction_only_witness :
  has_nan Ex.y_nan /\
  ekf_tick Ex.plant1 Ex.engine0 Ex.u0 Ex.y_nan =
    (pr <- ekf_predict Ex.plant1 Ex.engine0 Ex.u0 Ex.y_nan ;;
     Ok (store Ex.engine0 (ep_inputs pr) (ep_outputs pr) (ep_states pr) (ep_xp pr) (ep_Pp pr))).
Proof.
split; first exact: has_nan_y_nan.
exact: (proj1 (missing_measurement_prediction_only Ex.sqrt_ex Ex.chol_ex
          Ex.plant1 ukf1 Ex.engine0 Ex.u0 has_nan_y_nan)).
Defined.

(** C5, counterexample: one EKF tick without measurement from [P0 = 1]
    leaves [P = 2]; [reset] keeps [2], not the constructor's [1]. *)
Lemma reset_keeps_covariance_cex :
  exists e1, ekf_tick Ex.plant1 Ex.engine0 Ex.u0 Ex.y_nan = Ok e1 /\
    covariance (reset e1) = 2%:R%:M /\ covariance Ex.engine0 = 1%:M /\
    covariance (reset e1) != covariance Ex.engine0.
Proof.
exists ekf_nan_tick; split; first exact: ekf_nan_tick_eq.
have -> : covariance (reset ekf_nan_tick) = 2%:R%:M := ekf_nan_tick_covariance.
do 2!split => //.
apply/eqP => /matrixP /(_ 0 0); rewrite !mxE /=.
move/eqP; vm_compute; move=> H; discriminate H.
Qed.

(** C7, counterexample: the same tick turns column 0 of the output
    history from [0] into the not-a-number marker. *)
Lemma nan_output_recorded_cex :
  exists e1, ekf_tick Ex.plant1 Ex.engine0 Ex.u0 Ex.y_nan = Ok e1 /\
    outputs Ex.engine0 0 0 0 = Some 0 /\ outputs e1 0 0 0 = None.
Proof.
exists ekf_nan_tick; split; first exact: ekf_nan_tick_eq.
by rewrite /= !mxE.
Qed.

Lemma tick_records_output_always_witness :
  outputs ekf_nan_tick = upd (outputs Ex.engine0) 0 Ex.y_nan /\
  inputs ekf_nan_tick = upd (inputs Ex.engine0) 0 Ex.u0.
Proof.
exact (tick_records_output_always (sqrt := Ex.sqrt_ex) (cholesky := Ex.chol_ex) (d := ukf1)
         (or_introl ekf_nan_tick_eq)).
Defined.

(** The linear filter with the model of [plant1], from [x0 = 0], [P0 = 1]. *)
Definition lkf1 : lkf rat 1 1 1 :=
  {| lA := 1%:M; lB := 0; lC := 1%:M; lD := 0; lQ := 1%:M; lR := 1%:M;
     x_pr := 0; x_ps := 0; res := 0; lK := 0; P_pr := 1%:M; P_ps := 1%:M |}.

Definition jac1 : jac rat 1 1 1 :=
  {| jA := 1%:M; jB := 0; jH := 1%:M; jD := 0; jL := 1%:M; jM := 1%:M |}.

Definition us2 : seq ('cV[rat]_1 * 'cV[rat]_1) := [:: (Ex.u0, 1); (Ex.u0, 2%:R%:M)].

Lemma ekf_linear_matches_lkf_witness :
  ekf_traj Ex.plant1 Ex.engine0 us2 = lkf_traj lkf1 us2.
Proof.
apply: (ekf_linear_matches_lkf (J := jac1)); intros; reflexivity.
Defined.

(** C4: a UKF tick of the one-state block [plant1] (with [num_states = 1],
    [alpha = 1], [kappa = 0]) from [x0 = 0], [P0 = 1] without a
    measurement succeeds but leaves column 0 of the state history, the
    initial condition, holding the last sigma point [-1] instead of [0]. *)
Theorem ukf_tick_overwrites_initial_state :
  match ukf_init Ex.cfg1 with
  | Ok d => exists e1,
      ukf_tick Ex.sqrt_ex Ex.chol_ex Ex.plant1 d Ex.engine0 Ex.u0 Ex.y_nan = Ok e1 /\
      states Ex.engine0 0 = 0 /\ states e1 0 = -1
  | Err _ => False
  end.
Proof.
simpl; eexists; split.
  by rewrite ukf_tick_nan ?has_nan_y_nan //; reflexivity.
split; first by apply/matrixP => i j; rewrite !mxE.
apply/matrixP => i j; rewrite !mxE (ord1 i) (ord1 j) /=.
case: insubP => [c _ _|/negP []] //=.
rewrite (ord1 c) !mxE /=.
apply/eqP; vm_compute; reflexivity.
Qed.

(** Two scopes of two signals on a time line with one instant. *)
Definition sc1 : scope rat :=
  {| sc_time_line := [:: 0]; sc_n_signals := 2;
     sc_signals := [:: [:: 1]; [:: 2%:R]]; sc_cols := 1 |}.
Definition sc2 : scope rat :=
  {| sc_time_line := [:: 0]; sc_n_signals := 2;
     sc_signals := [:: [:: 3%:R]; [:: 4%:R]]; sc_cols := 1 |}.

(** C8, counterexample: [sc1.append(sc2, [1])] has the rows [[2], [4]];
    its [select([1])] is [[4]], not [sc1.signals[[1]] = [[2]]]. *)
Lemma scope_append_select_cex :
  exists o o', scope_append sc1 sc2 (Some [:: Posz 1]) = Ok o /\
    scope_select o [:: Posz 1] = Ok o' /\
    take_rows (sc_signals sc1) [:: Posz 1] = Ok [:: [:: 2%:R]] /\
    sc_signals o' != [:: [:: 2%:R]].
Proof.
do 2!eexists; split; first reflexivity.
split; first reflexivity.
split; first reflexivity.
vm_compute; reflexivity.
Qed.

Definition sc12 : scope rat :=
  {| sc_time_line := [:: 0]; sc_n_signals := 2;
     sc_signals := [:: [:: 2%:R]; [:: 4%:R]]; sc_cols := 1 |}.

Lemma scope_append_select_positions_witness :
  scope_append sc1 sc2 (Some [:: Posz 1]) = Ok sc12 /\
  scope_select sc12 [:: Posz 0] =
    Ok {| sc_time_line := [:: 0]; sc_n_signals := 1;
          sc_signals := [:: [:: 2%:R]]; sc_cols := 1 |}.
Proof.
exact (scope_append_select_positions (s1 := sc1) (s2 := sc2) (l := [:: Posz 1])
         (r1 := [:: [:: 2%:R]]) (r2 := [:: [:: 4%:R]])
         erefl erefl erefl erefl erefl erefl erefl).
Defined.

(** The global names of [blocks/general_blocks.py]: [np] from
    [core.lib.required_libraries], the names [dynamic_engine] binds, and
    the block classes. *)
Definition ge_blocks : namespace rat :=
  [seq (x, VObj rat) | x <- [:: "np"; "scipy"; "SolverCore"; "Clib"; "Structure";
     "Scope"; "LtiGroup"; "LinearKalmanFilter"; "NeuroIdentifier";
     "NonlinearGroup"; "Nonlinear"; "QuadrupleTank"; "TwoTanks"; "Lorenz";
     "NonSys1"]%string].

Lemma lorenz_jacobians_always_name_error_witness :
  assoc ge_blocks "B"%string = None /\
  lorenz_jacobians_py ge_blocks (fun _ => 0) 0 = Err (NameError "B").
Proof.
split; first reflexivity.
apply: (proj1 (proj2 (lorenz_jacobians_always_name_error Ex.sqrt_ex Ex.chol_ex
          (ge := ge_blocks) erefl))).
discriminate.
Defined.

(** The value of a call that succeeds. *)
Definition ok_or (A : Type) (d : A) (r : result A) : A :=
  match r with Ok a => a | Err _ => d end.

Lemma ok_orE (A : Type) (d : A) (r : result A) a : r = Ok a -> r = Ok (ok_or d r).
Proof. by move=> ->. Qed.

(** One simulator call with input and noises [0]. *)
Definition cs1 : seq ('cV[rat]_1 * 'cV[rat]_1 * 'cV[rat]_1) := [:: (Ex.u0, 0, 0)].

Lemma sim_run_keeps_past_states_witness :
  (current_step Ex.engine0 + size cs1 <= n_steps Ex.engine0)%N /\
  exists e', sim_run Ex.plant1 Ex.engine0 cs1 = Ok e' /\
    n_steps e' = n_steps Ex.engine0 /\
    current_step e' = (current_step Ex.engine0 + size cs1)%N /\
    (forall j, (j <= current_step Ex.engine0)%N -> states e' j = states Ex.engine0 j) /\
    (forall j, (j < current_step Ex.engine0)%N ->
       inputs e' j = inputs Ex.engine0 j /\ outputs e' j = outputs Ex.engine0 j) /\
    (current_step e' = n_steps Ex.engine0 ->
       forall u xn yn, sim_call Ex.plant1 false e' u xn yn = Err IndexError).
Proof.
have H : (current_step Ex.engine0 + size cs1 <= n_steps Ex.engine0)%N by [].
split; first exact: H.
exact: (@sim_run_keeps_past_states _ _ _ _ Ex.plant1 Ex.engine0 cs1 H).
Defined.

(** One system [x' = x], [y = x] in a group without delay. *)
Definition lti1 : lti rat 1 1 1 1 :=
  {| lt_A := 1%:M; lt_B := 0; lt_C := 1%:M; lt_D := 0; lt_Q := 1%:M; lt_R := 1%:M;
     lt_Q_ch := 1%:M; lt_R_ch := 1%:M; lt_newest := false; lt_auto_noise := false;
     lt_inputs := [:: 0]; lt_states := states Ex.engine0 0; lt_outputs := 0 |}.

Lemma simulator_linear_matches_lti_witness :
  lt_states lti1 = states Ex.engine0 (current_step Ex.engine0) /\
  (current_step Ex.engine0 + size cs1 <= n_steps Ex.engine0)%N /\
  exists tr, lti_traj lti1 (sim_args cs1) = Ok tr /\
    sim_traj Ex.plant1 Ex.engine0 cs1 = Ok [seq (p.1, measured p.2) | p <- tr].
Proof.
have H1 : lt_states lti1 = states Ex.engine0 (current_step Ex.engine0) by [].
have H2 : (current_step Ex.engine0 + size cs1 <= n_steps Ex.engine0)%N by [].
split; first exact: H1.
split; first exact: H2.
exact: (@simulator_linear_matches_lti _ _ _ _ 1%:M 0 1%:M 1%:M 1%:M Ex.engine0 lti1 cs1
          erefl erefl erefl erefl erefl erefl erefl H1 H2).
Defined.

(** Two systems [x' = x] sharing noise injection with [Q = 1]. *)
Definition lti2 : lti rat 1 1 1 2 :=
  {| lt_A := 1%:M; lt_B := 0; lt_C := 1%:M; lt_D := 0; lt_Q := 1%:M; lt_R := 1%:M;
     lt_Q_ch := 1%:M; lt_R_ch := 1%:M; lt_newest := false; lt_auto_noise := true;
     lt_inputs := [:: 0]; lt_states := 0; lt_outputs := 0 |}.

(** A call with a noise draw [1] and an [x_noise] that differs per system. *)
Definition args2 : lti_args rat 1 1 1 2 :=
  {| a_u := 0; a_xn := \matrix_(i, j) (j : nat)%:R; a_yn := 0; a_rx := 1; a_ry := 0 |}.

(** The group after that call. *)
Definition lti2_next : lti rat 1 1 1 2 := ok_or lti2 (lti_call lti2 args2).

Lemma lti2_Q_neq0 : lt_Q lti2 != 0.
Proof. by apply/eqP => /matrixP /(_ 0 0); rewrite !mxE /= => /eqP; rewrite oner_eq0. Qed.

Lemma lti_auto_noise_shared_witness :
  lt_auto_noise lti2 = true /\ lt_Q lti2 != 0 /\ lti_call lti2 args2 = Ok lti2_next /\
  let w := lt_states lti2_next - (lt_A lti2 *m lt_states lti2 + lt_B lti2 *m head 0 (lt_inputs lti2_next)) in
  w = bcast_cols 2 (lt_Q_ch lti2 *m a_rx args2) /\ forall i j j', w i j = w i j'.
Proof.
have H : lti_call lti2 args2 = Ok lti2_next by reflexivity.
split; first by [].
split; first exact: lti2_Q_neq0.
split; first exact: H.
exact: (@lti_auto_noise_shared _ _ _ _ _ lti2 lti2_next args2 erefl lti2_Q_neq0 H).
Defined.

(** The keywords of [Nonlinear(..., estimator=False)]. *)
Definition kw_false : seq (string * bool) := [:: ("estimator"%string, false)].

Lemma estimator_keyword_false_still_estimator_witness :
  List.In ("estimator"%string, false) kw_false /\
  sim_call Ex.plant1 (nonlinear_estimator kw_false) Ex.engine0 Ex.u0 0 0 = Ok Ex.engine0.
Proof.
have H : List.In ("estimator"%string, false) kw_false by left.
split; first exact: H.
exact: (estimator_keyword_false_still_estimator Ex.plant1 Ex.engine0 Ex.u0 0 0 H).
Defined.

(** One signal [1, 2, 3] over the time line [0, 1, 2]. *)
Definition sc_row : scope rat :=
  {| sc_time_line := Ex.tl3; sc_n_signals := 1;
     sc_signals := [:: [:: 1; 2%:R; 3%:R]]; sc_cols := 3 |}.

Lemma scope_roll_compose_witness :
  (0 < size (sc_time_line sc_row))%N /\ sc_cols sc_row = size (sc_time_line sc_row) /\
  sc_n_signals sc_row = size (sc_signals sc_row) /\
  all (fun row => size row == size (sc_time_line sc_row)) (sc_signals sc_row) /\
  (s' <- scope_roll sc_row 1 ;; scope_roll s' (-2)) = scope_roll sc_row (1 + -2) /\
  (s' <- scope_roll sc_row 1 ;; scope_roll s' (- 1)) = Ok sc_row.
Proof.
have H1 : (0 < size (sc_time_line sc_row))%N by [].
have H2 : sc_cols sc_row = size (sc_time_line sc_row) by [].
have H3 : sc_n_signals sc_row = size (sc_signals sc_row) by [].
have H4 : all (fun row => size row == size (sc_time_line sc_row)) (sc_signals sc_row) by [].
do 4 (split; first by []).
exact: (@scope_roll_compose _ sc_row 1 (-2) H1 H2 H3 H4).
Defined.

(** Three signals over the time line [0, 1, 2]. *)
Definition sc_three : scope rat :=
  {| sc_time_line := Ex.tl3; sc_n_signals := 3;
     sc_signals := [:: [:: 1; 1; 1]; [:: 2%:R; 2%:R; 2%:R]; [:: 3%:R; 3%:R; 3%:R]];
     sc_cols := 3 |}.

Lemma scope_remove_keeps_others_witness :
  all (fun i => py_index 3 i != None) [:: Negz 0; Posz 0] /\
  scope_remove sc_three [:: Negz 0; Posz 0] =
    Ok {| sc_time_line := Ex.tl3; sc_n_signals := 1;
          sc_signals := [:: [:: 2%:R; 2%:R; 2%:R]]; sc_cols := 3 |}.
Proof.
split; first by [].
exact: (@scope_remove_keeps_others _ sc_three [:: Negz 0; Posz 0]
          erefl erefl erefl erefl erefl erefl).
Defined.

(** A scope object of one signal over two instants, at step [0]. *)
Definition so_two : scope_obj rat :=
  {| so_scope := {| sc_time_line := [:: 0; 1]; sc_n_signals := 1;
                    sc_signals := [:: [:: 0; 0]]; sc_cols := 2 |};
     so_step := 0 |}.

(** Two calls [get(data, noise)]: [get([1], [0])], then [get([2], [1])]. *)
Definition ds_two : seq (seq rat * seq rat) := [:: ([:: 1], [:: 0]); ([:: 2%:R], [:: 1])].

Lemma scope_get_fills_then_index_error_witness :
  so_step so_two = 0%N /\ size ds_two = sc_cols (so_scope so_two) /\
  exists o', scope_gets so_two ds_two = Ok o' /\ so_step o' = 2%N /\
    (forall i j, (i < 1)%N -> (j < 2)%N ->
       nth 0 (nth [::] (sc_signals (so_scope o')) i) j =
         nth 0 (nth ([::], [::]) ds_two j).1 i + nth 0 (nth ([::], [::]) ds_two j).2 i) /\
    (forall d z, size d = 1%N -> size z = 1%N -> scope_get o' d z = Err IndexError).
Proof.
split; first by [].
split; first by [].
exact: (@scope_get_fills_then_index_error _ so_two ds_two erefl erefl erefl erefl).
Defined.

Lemma iadd_rebinds_to_none_witness :
  env_get [:: ("tank"%string, PyObj 0)] "tank" = Some (PyObj 0) /\
  exists env' steps', aug_add [:: ("tank"%string, PyObj 0)] (fun _ => 0%N) "tank" 1 = Ok (env', steps') /\
    steps' 0%N = 1%N /\ env_get env' "tank" = Some PyNone /\
    (forall y, y <> "tank"%string -> env_get env' y = env_get [:: ("tank"%string, PyObj 0)] y) /\
    aug_add env' steps' "tank" 1 = Err TypeError.
Proof.
have H : env_get [:: ("tank"%string, PyObj 0)] "tank" = Some (PyObj 0) by reflexivity.
split; first exact: H.
exact: (@iadd_rebinds_to_none _ (fun _ => 0%N) _ _ 1 1 H).
Defined.

Lemma sigma_points_symmetric_witness :
  (0 < 1 <= 1)%N /\
  sigma_point (1 : 'cV[rat]_1) (2%:R%:M) 1 + sigma_point (1 : 'cV[rat]_1) (2%:R%:M) (1 + 1) =
    2%:R *: (1 : 'cV[rat]_1).
Proof.
have H : (0 < 1 <= 1)%N by [].
split; first exact: H.
exact: (@sigma_points_symmetric _ 1 1 (2%:R%:M) 1 H).
Defined.

Lemma sample_time_skips_last_interval_witness :
  (3 <= size Ex.tl3)%N /\
  mean_step Ex.tl3 = (nth 0 Ex.tl3 (size Ex.tl3 - 2) - nth 0 Ex.tl3 0) / (size Ex.tl3 - 2)%:R.
Proof.
have H : (3 <= size Ex.tl3)%N by [].
split; first exact: H.
exact: (@sample_time_skips_last_interval _ Ex.tl3 H).
Defined.

Lemma sym_scalar (m : nat) (a : rat) : (a%:M : 'M[rat]_m)^T = a%:M.
Proof. exact: tr_scalar_mx. Qed.

(** One call of [lkf1] with input [0] and output [1]. *)
Definition lkf1_next : lkf rat 1 1 1 := ok_or lkf1 (lkf_call lkf1 Ex.u0 1).

Lemma lkf1_call : lkf_call lkf1 Ex.u0 1 = Ok lkf1_next.
Proof.
rewrite /lkf1_next /lkf_call /inv_py /=.
have -> : (1%:M *m (1%:M *m 1%:M *m (1%:M)^T + 1%:M) *m (1%:M)^T + 1%:M : 'M[rat]_1) \in unitmx.
  rewrite !mul1mx !trmx1 !mulmx1 -!raddfD /= unitmxE det_scalar1 unitfE.
  by [].
reflexivity.
Qed.

Lemma lkf_call_keeps_covariance_symmetric_witness :
  (P_ps lkf1)^T = P_ps lkf1 /\ (lQ lkf1)^T = lQ lkf1 /\ (lR lkf1)^T = lR lkf1 /\
  lkf_call lkf1 Ex.u0 1 = Ok lkf1_next /\
  (P_pr lkf1_next)^T = P_pr lkf1_next /\ (P_ps lkf1_next)^T = P_ps lkf1_next.
Proof.
have H1 : (P_ps lkf1)^T = P_ps lkf1 by exact: sym_scalar.
have H2 : (lQ lkf1)^T = lQ lkf1 by exact: sym_scalar.
have H3 : (lR lkf1)^T = lR lkf1 by exact: sym_scalar.
do 3 (split; first by []).
split; first exact: lkf1_call.
exact: (@lkf_call_keeps_covariance_symmetric _ _ _ _ lkf1 lkf1_next Ex.u0 1 H1 H2 H3 lkf1_call).
Defined.

Lemma ekf_tick_keeps_covariance_symmetric_witness :
  (covariance Ex.engine0)^T = covariance Ex.engine0 /\
  (q_matrix Ex.plant1)^T = q_matrix Ex.plant1 /\ (r_matrix Ex.plant1)^T = r_matrix Ex.plant1 /\
  ekf_tick Ex.plant1 Ex.engine0 Ex.u0 Ex.y_nan = Ok ekf_nan_tick /\
  (covariance ekf_nan_tick)^T = covariance ekf_nan_tick.
Proof.
have H1 : (covariance Ex.engine0)^T = covariance Ex.engine0 by exact: sym_scalar.
have H2 : (q_matrix Ex.plant1)^T = q_matrix Ex.plant1 by exact: sym_scalar.
have H3 : (r_matrix Ex.plant1)^T = r_matrix Ex.plant1 by exact: sym_scalar.
do 3 (split; first by []).
split; first exact: ekf_nan_tick_eq.
exact: (@ekf_tick_keeps_covariance_symmetric _ _ _ _ Ex.plant1 Ex.engine0 Ex.u0 Ex.y_nan
          ekf_nan_tick H1 H2 H3 ekf_nan_tick_eq).
Defined.

(** One UKF tick of [plant1] from [engine0] without a measurement. *)
Definition ukf_nan_tick : engine rat 1 1 1 :=
  ok_or Ex.engine0 (ukf_tick Ex.sqrt_ex Ex.chol_ex Ex.plant1 ukf1 Ex.engine0 Ex.u0 Ex.y_nan).

Lemma ukf_nan_tick_eq :
  ukf_tick Ex.sqrt_ex Ex.chol_ex Ex.plant1 ukf1 Ex.engine0 Ex.u0 Ex.y_nan = Ok ukf_nan_tick.
Proof.
have [e1 E] : exists e1,
    ukf_tick Ex.sqrt_ex Ex.chol_ex Ex.plant1 ukf1 Ex.engine0 Ex.u0 Ex.y_nan = Ok e1.
  by eexists; rewrite ukf_tick_nan ?has_nan_y_nan //; reflexivity.
exact: (ok_orE _ E).
Qed.

Lemma ukf_tick_covariance_symmetric_witness :
  (q_matrix Ex.plant1)^T = q_matrix Ex.plant1 /\ (r_matrix Ex.plant1)^T = r_matrix Ex.plant1 /\
  ukf_tick Ex.sqrt_ex Ex.chol_ex Ex.plant1 ukf1 Ex.engine0 Ex.u0 Ex.y_nan = Ok ukf_nan_tick /\
  (covariance ukf_nan_tick)^T = covariance ukf_nan_tick.
Proof.
have H2 : (q_matrix Ex.plant1)^T = q_matrix Ex.plant1 by exact: sym_scalar.
have H3 : (r_matrix Ex.plant1)^T = r_matrix Ex.plant1 by exact: sym_scalar.
do 2 (split; first by []).
split; first exact: ukf_nan_tick_eq.
exact: (@ukf_tick_covariance_symmetric _ _ _ _ Ex.plant1 Ex.sqrt_ex Ex.chol_ex ukf1 Ex.engine0
          Ex.u0 Ex.y_nan ukf_nan_tick H2 H3 ukf_nan_tick_eq).
Defined.

End Concrete.
